(** * Star-seeker: the streaming search adapter

    A shallow embedding of [src/services/geminiService.ts]
    ([performSearchStream]) and the properties its specification states
    about the snapshots it emits.

    Layout:
    - [JsString]  : JavaScript strings as sequences of UTF-16 code units and
                    the [String.prototype] methods the adapter calls;
    - [JsRegExp]  : the fragment of regular expressions needed for
                    [/^추천검색어:.*$/m] and [String.prototype.replace];
    - [JsMap]     : [Map] as an insertion-ordered association list;
    - [GeminiService] : the adapter itself, then the theorems. *)

From Stdlib Require Import String Ascii.
From Stdlib Require Import List Bool Arith NArith Lia.
Import ListNotations.

Set Implicit Arguments.

(* ================================================================== *)
(** ** JavaScript strings *)
(* ================================================================== *)

Module JsString.

(** A JavaScript string is a finite sequence of 16-bit code units. *)
Definition jsstring := list N.

Fixpoint eqb (a b : jsstring) : bool :=
  match a, b with
  | [], [] => true
  | x :: a', y :: b' => N.eqb x y && eqb a' b'
  | _, _ => false
  end.

(** *** Literals

    Source literals are written as Rocq strings (UTF-8 bytes) and turned
    into code units by [js].  [utf8_units pending acc bs] is a decoder with
    [pending] continuation bytes still expected for the code point whose
    high bits are in [acc]. *)

Definition units_of_code_point (cp : N) : jsstring :=
  if (cp <? 65536)%N then [cp]
  else
    let v := (cp - 65536)%N in
    [(55296 + N.shiftr v 10)%N; (56320 + N.land v 1023)%N].

Fixpoint utf8_units (pending : nat) (acc : N) (bs : list N) : jsstring :=
  match bs with
  | [] => []
  | b :: bs' =>
      match pending with
      | O =>
          if (b <? 128)%N then b :: utf8_units 0 0%N bs'
          else if (b <? 224)%N then utf8_units 1 (N.land b 31) bs'
          else if (b <? 240)%N then utf8_units 2 (N.land b 15) bs'
          else utf8_units 3 (N.land b 7) bs'
      | S p =>
          let acc' := (acc * 64 + N.land b 63)%N in
          match p with
          | O => units_of_code_point acc' ++ utf8_units 0 0%N bs'
          | S _ => utf8_units p acc' bs'
          end
      end
  end.

Definition js (s : string) : jsstring :=
  utf8_units 0 0%N (map N_of_ascii (list_ascii_of_string s)).

(** *** Character classes *)

(** ECMAScript [LineTerminator]: LF, CR, LS, PS. *)
Definition is_line_terminator (c : N) : bool :=
  N.eqb c 10 || N.eqb c 13 || N.eqb c 8232 || N.eqb c 8233.

(** ECMAScript [WhiteSpace] or [LineTerminator]: what [trim] strips. *)
Definition is_white_space (c : N) : bool :=
  N.eqb c 9 || N.eqb c 11 || N.eqb c 12 || N.eqb c 32 || N.eqb c 160
  || N.eqb c 5760 || (N.leb 8192 c && N.leb c 8202)
  || N.eqb c 8239 || N.eqb c 8287 || N.eqb c 12288 || N.eqb c 65279
  || is_line_terminator c.

(** *** Methods of [String.prototype] *)

(** [s.startsWith(p)] *)
Fixpoint startsWith (p s : jsstring) : bool :=
  match p with
  | [] => true
  | x :: p' =>
      match s with
      | [] => false
      | y :: s' => N.eqb x y && startsWith p' s'
      end
  end.

(** [s.includes(p)] *)
Fixpoint includes (p s : jsstring) : bool :=
  startsWith p s ||
  match s with
  | [] => false
  | _ :: s' => includes p s'
  end.

Fixpoint trimStart (s : jsstring) : jsstring :=
  match s with
  | [] => []
  | c :: s' => if is_white_space c then trimStart s' else s
  end.

Definition trimEnd (s : jsstring) : jsstring := rev (trimStart (rev s)).

(** [s.trim()] *)
Definition trim (s : jsstring) : jsstring := trimEnd (trimStart s).

(** [s.split(sep)] for a non-empty separator.  [skip] counts the code units
    of a separator just recognised that are still to be passed over, [cur]
    is the piece being read, reversed. *)
Fixpoint split_from (sep : jsstring) (skip : nat) (cur s : jsstring)
  : list jsstring :=
  match s with
  | [] => [rev cur]
  | c :: s' =>
      match skip with
      | S k => split_from sep k cur s'
      | O =>
          if startsWith sep s
          then rev cur :: split_from sep (length sep - 1) [] s'
          else split_from sep 0 (c :: cur) s'
      end
  end.

Definition split (sep s : jsstring) : list jsstring :=
  match sep with
  | [] => map (fun c => [c]) s
  | _ => split_from sep 0 [] s
  end.

(** [s.replace(p, r)] with a string pattern: the first occurrence only.
    (No [$]-patterns occur in the replacement used by the adapter.) *)
Fixpoint replace (p r s : jsstring) : jsstring :=
  if startsWith p s then r ++ skipn (length p) s
  else
    match s with
    | [] => []
    | c :: s' => c :: replace p r s'
    end.

(** Truthiness of a string: every string but the empty one. *)
Definition truthy (s : jsstring) : bool :=
  match s with [] => false | _ => true end.

(** Truthiness of [string | undefined]. *)
Definition truthy_opt (s : option jsstring) : bool :=
  match s with Some s' => truthy s' | None => false end.

(** [s || ""] *)
Definition or_empty (s : option jsstring) : jsstring :=
  match s with Some s' => s' | None => [] end.

End JsString.

Import JsString.

(* ================================================================== *)
(** ** Regular expressions *)
(* ================================================================== *)

Module JsRegExp.

(** The pattern language of [/^추천검색어:.*$/m]: assertions [^] and [$],
    literal code units, and a greedy [.*] (no [s] flag, so [.] is every code
    unit but a line terminator). *)
Inductive node : Type :=
| Bol
| Eol
| Lit (c : N)
| DotStar.

Record regexp : Type := { nodes : list node; multiline : bool }.

(** [^] holds at index 0 and, with the [m] flag, right after a line
    terminator; [prev] is the code unit before the current position. *)
Definition at_bol (m : bool) (prev : option N) : bool :=
  match prev with
  | None => true
  | Some c => m && is_line_terminator c
  end.

(** [$] holds at the end of the input and, with the [m] flag, right before
    a line terminator. *)
Definition at_eol (m : bool) (s : jsstring) : bool :=
  match s with
  | [] => true
  | c :: _ => m && is_line_terminator c
  end.

(** Backtracking matcher: [match_nodes m p prev s] tries [p] at the position
    whose remaining input is [s] and returns the input left after the match.
    [.*] takes the longest run first and gives code units back on failure. *)
Fixpoint match_nodes (m : bool) (p : list node)
  : option N -> jsstring -> option jsstring :=
  match p with
  | [] => fun _ s => Some s
  | Bol :: p' =>
      fun prev s => if at_bol m prev then match_nodes m p' prev s else None
  | Eol :: p' =>
      fun prev s => if at_eol m s then match_nodes m p' prev s else None
  | Lit c :: p' =>
      fun _ s =>
        match s with
        | x :: s' => if N.eqb x c then match_nodes m p' (Some x) s' else None
        | [] => None
        end
  | DotStar :: p' =>
      fix star (prev : option N) (s : jsstring) : option jsstring :=
        match s with
        | x :: s' =>
            if is_line_terminator x then match_nodes m p' prev s
            else
              match star (Some x) s' with
              | Some r => Some r
              | None => match_nodes m p' prev s
              end
        | [] => match_nodes m p' prev s
        end
  end.

(** [s.replace(re, r)] for a regular expression without the [g] flag: the
    leftmost match is replaced, the rest of the input is kept. *)
Fixpoint replace_from (re : regexp) (r : jsstring) (prev : option N)
  (s : jsstring) : jsstring :=
  match match_nodes (multiline re) (nodes re) prev s with
  | Some rest => r ++ rest
  | None =>
      match s with
      | [] => []
      | c :: s' => c :: replace_from re r (Some c) s'
      end
  end.

Definition replace (re : regexp) (r s : jsstring) : jsstring :=
  replace_from re r None s.

Definition literal (s : jsstring) : list node := map Lit s.

End JsRegExp.

(* ================================================================== *)
(** ** Map *)
(* ================================================================== *)

Module JsMap.

Section Def.

Variables K V : Type.
Variable key_eqb : K -> K -> bool.

(** A [Map] keeps its entries in the order their keys were first inserted. *)
Definition t := list (K * V).

(** [m.set(k, v)]: an existing key keeps its position and gets the new
    value, a new key goes to the end. *)
Fixpoint set (m : t) (k : K) (v : V) : t :=
  match m with
  | [] => [(k, v)]
  | (k', v') :: m' =>
      if key_eqb k' k then (k', v) :: m' else (k', v') :: set m' k v
  end.

Fixpoint get (m : t) (k : K) : option V :=
  match m with
  | [] => None
  | (k', v') :: m' => if key_eqb k' k then Some v' else get m' k
  end.

(** [new Map(entries)] *)
Definition from_entries (es : list (K * V)) : t :=
  fold_left (fun m e => set m (fst e) (snd e)) es [].

(** [m.keys()] and [m.values()], as arrays *)
Definition keys (m : t) : list K := map fst m.
Definition values (m : t) : list V := map snd m.

End Def.

End JsMap.

(* ================================================================== *)
(** ** The adapter: [src/services/geminiService.ts] *)
(* ================================================================== *)

Module GeminiService.

Definition LF : jsstring := [10%N].
Definition QUOTE : jsstring := [34%N].

(** The literal ["추천검색어:"] *)
Definition MARKER : jsstring := js "추천검색어:".

(** The regular expression [/^추천검색어:.*$/m] *)
Definition MARKER_LINE : JsRegExp.regexp :=
  {| JsRegExp.nodes :=
       JsRegExp.Bol :: JsRegExp.literal MARKER
         ++ [JsRegExp.DotStar; JsRegExp.Eol];
     JsRegExp.multiline := true |}.

(** *** What the upstream service delivers *)

(** A web citation; [title] may be missing. *)
Record GroundingChunkWeb : Type :=
  { web_uri : jsstring; web_title : option jsstring }.

Record GroundingChunk : Type := { web : option GroundingChunkWeb }.

Record GroundingMetadata : Type :=
  { groundingChunks : option (list GroundingChunk) }.

Record Candidate : Type :=
  { groundingMetadata : option GroundingMetadata }.

(** One chunk of the response stream: [chunk.text] and [chunk.candidates]. *)
Record Chunk : Type :=
  { chunk_text : option jsstring; candidates : option (list Candidate) }.

(** A thrown value: [new Error(message)]. *)
Inductive JsError : Type := Error (message : jsstring).

(** The behaviour of the service for one request: the request is rejected,
    or a stream delivers [chunks] and then ends, normally or by throwing. *)
Inductive Upstream : Type :=
| RequestFails (e : JsError)
| Streams (chunks : list Chunk) (failure : option JsError).

(** [process.env] *)
Record Env : Type := { GEMINI_API_KEY : option jsstring }.

(** *** What the adapter yields *)

Record SourceRef : Type := { uri : jsstring; title : jsstring }.

(** [{ text, suggestion, sources }] *)
Record Snapshot : Type :=
  { text : jsstring; suggestion : option jsstring; sources : list SourceRef }.

Inductive Item : Type :=
| ItemSnapshot (s : Snapshot)
| ItemDone.                      (* [{ done: true }] *)

(** *** The loop variables *)

Record State : Type :=
  { fullText : jsstring;
    cur_suggestion : option jsstring;
    cur_sources : list SourceRef }.

(** [let fullText = ""; let suggestion; let sources = [];] *)
Definition initial : State :=
  {| fullText := []; cur_suggestion := None; cur_sources := [] |}.

(** [chunk.candidates?.[0]?.groundingMetadata?.groundingChunks || []] *)
Definition chunks_of (chunk : Chunk) : list GroundingChunk :=
  match candidates chunk with
  | None => []
  | Some cands =>
      match nth_error cands 0 with
      | None => []
      | Some cand =>
          match groundingMetadata cand with
          | None => []
          | Some meta =>
              match groundingChunks meta with
              | None => []
              | Some l => l
              end
          end
      end
  end.

(** [{ uri: c.web!.uri, title: c.web!.title || c.web!.uri }] *)
Definition source_of_web (w : GroundingChunkWeb) : SourceRef :=
  {| uri := web_uri w;
     title := if truthy_opt (web_title w)
              then or_empty (web_title w) else web_uri w |}.

(** [chunks.filter(c => c.web)], as the list of those [web] fields. *)
Definition web_entries (chunks : list GroundingChunk)
  : list GroundingChunkWeb :=
  flat_map (fun c => match web c with Some w => [w] | None => [] end) chunks.

(** [chunks.filter(c => c.web).map(c => ({...}))]: the entries that have a
    [web] field, each turned into a [SourceRef]. *)
Definition new_sources (chunks : list GroundingChunk) : list SourceRef :=
  map source_of_web (web_entries chunks).

(** [Array.from(new Map(allSources.map(s => [s.uri, s])).values())] *)
Definition rebuild (allSources : list SourceRef) : list SourceRef :=
  JsMap.values
    (JsMap.from_entries JsString.eqb (map (fun s => (uri s, s)) allSources)).

(** The suggestion after a chunk (lines 38-44). *)
Definition next_suggestion (suggestion : option jsstring) (fullText : jsstring)
  : option jsstring :=
  if negb (truthy_opt suggestion) && includes MARKER fullText then
    let lines := split LF fullText in
    let suggestionLine :=
      find (fun line => startsWith MARKER (trim line)) lines in
    match suggestionLine with
    | Some line =>
        if truthy line
           && (includes LF line || (1 <? length (split LF fullText)))
        then Some (trim (JsString.replace MARKER [] line))
        else suggestion
    | None => suggestion
    end
  else suggestion.

(** The sources after a chunk (lines 47-58). *)
Definition next_sources (sources : list SourceRef) (chunk : Chunk)
  : list SourceRef :=
  let chunks := chunks_of chunk in
  if 0 <? length chunks then
    let newSources := new_sources chunks in
    let allSources := sources ++ newSources in
    rebuild allSources
  else sources.

(** One iteration of the [for await] loop, up to the [yield]. *)
Definition step (st : State) (chunk : Chunk) : State :=
  let chunkText := or_empty (chunk_text chunk) in
  let fullText' := fullText st ++ chunkText in
  {| fullText := fullText';
     cur_suggestion := next_suggestion (cur_suggestion st) fullText';
     cur_sources := next_sources (cur_sources st) chunk |}.

(** The object yielded at the end of an iteration (lines 60-64). *)
Definition snapshot_of (st : State) : Snapshot :=
  {| text := trim (JsRegExp.replace MARKER_LINE [] (fullText st));
     suggestion := cur_suggestion st;
     sources := cur_sources st |}.

(** The state after a sequence of chunks. *)
Definition run_from (st : State) (cs : list Chunk) : State :=
  fold_left step cs st.

(** The snapshots yielded while consuming [cs] from state [st]. *)
Fixpoint snapshots_from (st : State) (cs : list Chunk) : list Snapshot :=
  match cs with
  | [] => []
  | c :: cs' =>
      let st' := step st c in
      snapshot_of st' :: snapshots_from st' cs'
  end.

Definition snapshots (cs : list Chunk) : list Snapshot :=
  snapshots_from initial cs.

(** *** The generator

    A run of the generator, driven to its end by the consumer, is the
    sequence of what it does, in order, and how it finishes.  The arrays it
    yields are never mutated afterwards ([sources] is reassigned, not
    updated in place), so a snapshot is a value. *)

Inductive Event : Type :=
| EvNewClient (apiKey : jsstring)            (* [new GoogleGenAI({ apiKey })] *)
| EvGenerateContentStream (model contents : jsstring)  (* the network call *)
| EvYield (item : Item)
| EvConsoleError (label : jsstring) (e : JsError).

Inductive Outcome : Type :=
| Returned
| Thrown (e : JsError).

Record Run : Type := { trace : list Event; outcome : Outcome }.

Definition MISSING_KEY : JsError :=
  Error (js "API 키가 설정되지 않았습니다. 환경 변수를 확인해주세요.").

Definition MODEL : jsstring := js "gemini-3-flash-preview".

(** The template literal of lines 20-23. *)
Definition contents_of (query : jsstring) : jsstring :=
  js "사용자 검색어: " ++ QUOTE ++ query ++ QUOTE ++ LF
  ++ js "      " ++ LF
  ++ js "      1. 오타가 있다면 첫 줄에 " ++ QUOTE
  ++ js "추천검색어: [수정된 검색어]" ++ QUOTE ++ js "라고 적으세요." ++ LF
  ++ js "      2. 그 다음 줄부터 검색 결과 요약을 한국어로 매우 간결하게 작성하세요.".

Definition performSearchStream (env : Env) (query : jsstring) (up : Upstream)
  : Run :=
  let apiKey := GEMINI_API_KEY env in
  if negb (truthy_opt apiKey) then
    {| trace := []; outcome := Thrown MISSING_KEY |}
  else
    let opened :=
      [EvNewClient (or_empty apiKey);
       EvGenerateContentStream MODEL (contents_of query)] in
    match up with
    | RequestFails e =>
        {| trace := opened ++ [EvConsoleError (js "Search error:") e];
           outcome := Thrown e |}
    | Streams cs failure =>
        let yielded := map (fun s => EvYield (ItemSnapshot s)) (snapshots cs) in
        match failure with
        | None =>
            {| trace := opened ++ yielded ++ [EvYield ItemDone];
               outcome := Returned |}
        | Some e =>
            {| trace := opened ++ yielded
                        ++ [EvConsoleError (js "Search error:") e];
               outcome := Thrown e |}
        end
    end.

(** The items the consumer receives, in order. *)
Definition emitted (r : Run) : list Item :=
  flat_map (fun ev => match ev with EvYield i => [i] | _ => [] end) (trace r).

(** The snapshots among them. *)
Definition emitted_snapshots (r : Run) : list Snapshot :=
  flat_map (fun i => match i with ItemSnapshot s => [s] | ItemDone => [] end)
    (emitted r).

(** Whether the run reached the service at all. *)
Definition contacted_upstream (r : Run) : bool :=
  existsb (fun ev => match ev with
                     | EvNewClient _ | EvGenerateContentStream _ _ => true
                     | _ => false
                     end) (trace r).

End GeminiService.

Import GeminiService.

(* ================================================================== *)
(** ** Calling the generator function *)
(* ================================================================== *)

Module AsyncGenerator.

(** How the evaluation of an expression completes: with a value, or by
    throwing. *)
Inductive Completion (A : Type) : Type :=
| Normal (v : A)
| Abrupt (e : JsError).

Arguments Normal {A} v.
Arguments Abrupt {A} e.

(** The object a call of an [async function*] returns: the body, not yet
    started, as a function of how the service will behave once it runs. *)
Record t : Type := { body : Upstream -> Run }.

(** [performSearchStream(query)] (line 9).  The function is declared
    [async function*]: the call evaluates no statement of the body, not
    even the test of line 11, and returns the generator object. *)
Definition call (env : Env) (query : jsstring) : Completion t :=
  Normal {| body := performSearchStream env query |}.

(** How the promise returned by a [next()] settles. *)
Inductive Settlement : Type :=
| Fulfilled (item : Item)
| Finished
| Rejected (e : JsError).

(** The first [g.next()]: the body runs up to its first [yield], or to its
    end when it yields nothing. *)
Definition first_next (g : t) (up : Upstream) : Settlement :=
  match emitted (body g up) with
  | item :: _ => Fulfilled item
  | [] =>
      match outcome (body g up) with
      | Returned => Finished
      | Thrown e => Rejected e
      end
  end.

End AsyncGenerator.

(* ================================================================== *)
(** ** Reference definitions, in the words of the specification *)
(* ================================================================== *)

Module Spec.

(** The accumulated buffer: the text of every chunk so far, in order. *)
Definition buffer (cs : list Chunk) : jsstring :=
  flat_map (fun c => or_empty (chunk_text c)) cs.

(** Every web citation of the stream so far, in order of arrival. *)
Definition all_citations (cs : list Chunk) : list SourceRef :=
  flat_map (fun c => new_sources (chunks_of c)) cs.

(** Keys in order of first appearance: each key stays where it is first
    seen, and its later occurrences are dropped. *)
Fixpoint first_appearances (l : list jsstring) : list jsstring :=
  match l with
  | [] => []
  | k :: l' =>
      k :: filter (fun x => negb (JsString.eqb x k)) (first_appearances l')
  end.

(** The most recent citation carrying [u]. *)
Definition last_occurrence (u : jsstring) (l : list SourceRef)
  : option SourceRef :=
  find (fun s => JsString.eqb (uri s) u) (rev l).

(** From the current position to the end of its line: the input from the
    next line terminator on. *)
Fixpoint line_end (s : jsstring) : jsstring :=
  match s with
  | [] => []
  | c :: s' => if is_line_terminator c then s else line_end s'
  end.

(** The buffer with the first line that begins with the marker emptied:
    its code units go, its line terminator stays.  [bol] tells whether the
    current position starts a line. *)
Fixpoint remove_first_marker_line (bol : bool) (s : jsstring) : jsstring :=
  if bol && startsWith MARKER s then line_end s
  else
    match s with
    | [] => []
    | c :: s' => c :: remove_first_marker_line (is_line_terminator c) s'
    end.

(** The buffer with every line that begins with the marker emptied.
    [dropping] tells whether the current line is one of them. *)
Fixpoint remove_every_marker_line (bol dropping : bool) (s : jsstring)
  : jsstring :=
  match s with
  | [] => []
  | c :: s' =>
      if is_line_terminator c then c :: remove_every_marker_line true false s'
      else if dropping || (bol && startsWith MARKER s)
           then remove_every_marker_line false true s'
           else c :: remove_every_marker_line false false s'
  end.

End Spec.

Import Spec.

(** *** Sample streams *)

(** A chunk of text without metadata. *)
Definition text_chunk (s : jsstring) : Chunk :=
  {| chunk_text := Some s; candidates := None |}.

(** A chunk whose first candidate cites the web pages [ws]. *)
Definition cited_chunk (s : option jsstring) (ws : list GroundingChunkWeb)
  : Chunk :=
  {| chunk_text := s;
     candidates :=
       Some [ {| groundingMetadata :=
                   Some {| groundingChunks :=
                             Some (map (fun w => {| web := Some w |}) ws) |}
              |} ] |}.

(** A citation with a title, and one without. *)
Definition page (u t : string) : GroundingChunkWeb :=
  {| web_uri := js u; web_title := Some (js t) |}.

Definition untitled_page (u : string) : GroundingChunkWeb :=
  {| web_uri := js u; web_title := None |}.

Definition with_key : Env := {| GEMINI_API_KEY := Some (js "k") |}.

(** *** Auxiliary notions for the proofs about the source list *)

Definition entries (l : list SourceRef) : list (jsstring * SourceRef) :=
  map (fun s => (uri s, s)) l.

(** Every entry sits under its own [uri]. *)
Definition keyed (m : JsMap.t jsstring SourceRef) : Prop :=
  Forall (fun e => fst e = uri (snd e)) m.

Definition mem (x : jsstring) (l : list jsstring) : bool :=
  existsb (JsString.eqb x) l.

(* ================================================================== *)
(** ** The consumer: [handleSearch] and the views of [App] *)
(* ================================================================== *)

Module App.

(** [SearchResult], the shape of the [result] state. *)
Record SearchResult : Type :=
  { text : jsstring;
    sources : list SourceRef;
    suggestion : option jsstring }.

(** The state hooks of [App]. *)
Record AppState : Type :=
  { query : jsstring;
    isSearching : bool;
    result : option SearchResult;
    error : option jsstring;
    hasSearched : bool }.

(** The fallback of [err.message || '...'] (line 50). *)
Definition DEFAULT_ERROR : jsstring :=
  js "검색 중 오류가 발생했습니다. 다시 시도해주세요.".

(** [prev?.text], [prev?.sources], [prev?.suggestion] *)
Definition prev_text (prev : option SearchResult) : option jsstring :=
  option_map text prev.

Definition prev_suggestion (prev : option SearchResult) : option jsstring :=
  match prev with Some p => suggestion p | None => None end.

(** The updater of lines 43-47 for a yielded snapshot [chunk].  An array is
    truthy even when empty, so [chunk.sources || ...] is [chunk.sources]. *)
Definition merge (prev : option SearchResult) (chunk : Snapshot)
  : SearchResult :=
  {| text := if truthy (GeminiService.text chunk)
             then GeminiService.text chunk
             else or_empty (prev_text prev);
     sources := GeminiService.sources chunk;
     suggestion := if truthy_opt (GeminiService.suggestion chunk)
                   then GeminiService.suggestion chunk
                   else prev_suggestion prev |}.

(** The [for await] loop of lines 41-48 over the items the generator
    yields: it stops at the terminal marker. *)
Fixpoint consume (prev : option SearchResult) (items : list Item)
  : option SearchResult :=
  match items with
  | [] => prev
  | ItemDone :: _ => prev
  | ItemSnapshot chunk :: rest => consume (Some (merge prev chunk)) rest
  end.

(** [err.message || '...'] *)
Definition error_message (e : JsError) : jsstring :=
  match e with Error m => if truthy m then m else DEFAULT_ERROR end.

(** [overrideQuery || query] *)
Definition searchTerm_of (st : AppState) (overrideQuery : option jsstring)
  : jsstring :=
  if truthy_opt overrideQuery then or_empty overrideQuery else query st.

(** [handleSearch] (lines 29-55), run to its end with every queued state
    update applied and no other event in between.  [isSearching] is the value
    the handler closed over.  The second component is the run of the
    generator, when one was started. *)
Definition handleSearch (env : Env) (up : Upstream) (st : AppState)
  (overrideQuery : option jsstring) : AppState * option Run :=
  let searchTerm := searchTerm_of st overrideQuery in
  if negb (truthy (trim searchTerm)) || isSearching st then (st, None)
  else
    let r := performSearchStream env searchTerm up in
    let started := Some {| text := []; sources := []; suggestion := None |} in
    ({| query := query st;
        isSearching := false;
        result := consume started (emitted r);
        error := match outcome r with
                 | Returned => None
                 | Thrown e => Some (error_message e)
                 end;
        hasSearched := true |},
     Some r).

(** The click handler of the suggestion button (lines 211-215):
    [setQuery(suggested); handleSearch(undefined, suggested)]. *)
Definition acceptSuggestion (env : Env) (up : Upstream) (st : AppState)
  (suggested : jsstring) : AppState * option Run :=
  let out := handleSearch env up st (Some suggested) in
  ({| query := suggested;
      isSearching := isSearching (fst out);
      result := result (fst out);
      error := error (fst out);
      hasSearched := hasSearched (fst out) |},
   snd out).

(** [disabled={isSearching || !query.trim()}] (line 178) *)
Definition submit_disabled (st : AppState) : bool :=
  isSearching st || negb (truthy (trim (query st))).

(** The suggestion banner (line 201): the suggestion it offers, if shown. *)
Definition suggestion_banner (st : AppState) : option jsstring :=
  if hasSearched st
     && negb (isSearching st)
     && truthy_opt (prev_suggestion (result st))
  then prev_suggestion (result st)
  else None.

(** What the results area renders (lines 224-341): the branch taken and the
    data it is given.  A source card evaluates [new URL(s.uri).hostname]
    (lines 274, 282, 327, 333), which throws for a [uri] that is no absolute
    URL; an exception during render is [RenderThrows]. *)
Inductive ResultsView : Type :=
| Skeleton
| ErrorCard (message : jsstring)
| Summary (text : jsstring) (prominent all : list SourceRef)
| NotEnoughResults
| Nothing
| RenderThrows.

(** Every card of the list can be drawn.  [url_parses u] tells whether
    [new URL(u)] returns. *)
Definition cards_render (url_parses : jsstring -> bool) (l : list SourceRef)
  : bool :=
  forallb (fun s => url_parses (uri s)) l.

Definition results_area (url_parses : jsstring -> bool) (st : AppState)
  : option ResultsView :=
  if hasSearched st then
    Some
      (if isSearching st && negb (truthy_opt (prev_text (result st)))
       then Skeleton
       else if truthy_opt (error st) then ErrorCard (or_empty (error st))
       else
         match result st with
         | Some r =>
             if 0 <? length (sources r)
             then
               if cards_render url_parses (firstn 4 (sources r))
                  && cards_render url_parses (sources r)
               then Summary (text r) (firstn 4 (sources r)) (sources r)
               else RenderThrows
             else NotEnoughResults
         | None => Nothing
         end)
  else None.

End App.

(** *** Auxiliary notions for the proofs about the stream *)

(** No line feed occurs in [s]. *)
Definition single_line (s : jsstring) : Prop := ~ In 10%N s.

(** No line terminator occurs in [s]. *)
Definition no_line_terminator (s : jsstring) : Prop :=
  forallb (fun c => negb (is_line_terminator c)) s = true.

(** A suggestion, when there is one, is trimmed and holds on one line. *)
Definition tidy_suggestion (o : option jsstring) : Prop :=
  forall s, o = Some s -> trim s = s /\ single_line s.

(** *** Auxiliary notions for the proofs about the consumer *)

(** The [result] state after the updater has been applied for each of the
    snapshots [l], in order. *)
Definition merged (prev : option App.SearchResult) (l : list Snapshot)
  : option App.SearchResult :=
  fold_left (fun p chunk => Some (App.merge p chunk)) l prev.

(** [setResult({ text: "", sources: [] })] (line 37) *)
Definition started : option App.SearchResult :=
  Some {| App.text := []; App.sources := []; App.suggestion := None |}.

(** The guard of line 32 lets the search through. *)
Definition search_starts (st : App.AppState) (overrideQuery : option jsstring)
  : Prop :=
  truthy (trim (App.searchTerm_of st overrideQuery)) = true
  /\ App.isSearching st = false.

(** The state a search leaves behind. *)
Definition after_search (env : Env) (up : Upstream) (st : App.AppState)
  (overrideQuery : option jsstring) : App.AppState :=
  fst (App.handleSearch env up st overrideQuery).

Definition idle (q : string) : App.AppState :=
  {| App.query := js q; App.isSearching := false; App.result := None;
     App.error := None; App.hasSearched := false |}.

(* ================================================================== *)
(** ** Strings: basic facts *)
(* ================================================================== *)

Lemma eqb_eq (a b : jsstring) : JsString.eqb a b = true <-> a = b.
Proof.
  revert b; induction a as [|x a IH]; intros [|y b]; simpl;
    try (split; [discriminate | discriminate]); try tauto.
  rewrite andb_true_iff, N.eqb_eq, IH.
  split; [intros [-> ->]; reflexivity | intros H; inversion H; auto].
Qed.

Lemma eqb_refl (a : jsstring) : JsString.eqb a a = true.
Proof. apply eqb_eq; reflexivity. Qed.

Lemma eqb_neq (a b : jsstring) : JsString.eqb a b = false <-> a <> b.
Proof.
  rewrite <- eqb_eq. destruct (JsString.eqb a b); split; congruence.
Qed.

Lemma truthy_opt_false (s : option jsstring) :
  truthy_opt s = false <-> s = None \/ s = Some [].
Proof.
  destruct s as [[|c s]|]; simpl; split; auto; try discriminate;
    intros [H|H]; discriminate.
Qed.

Example js_marker_units :
  js "추천검색어:" = [52628; 52380; 44160; 49353; 50612; 58]%N.
Proof. reflexivity. Qed.

Example split_two_lines :
  split LF (js "ab" ++ LF ++ js "cd") = [js "ab"; js "cd"].
Proof. reflexivity. Qed.

(* ================================================================== *)
(** ** The loop: states, snapshots and what the generator emits *)
(* ================================================================== *)

Lemma run_from_app (st : State) (cs cs' : list Chunk) :
  run_from st (cs ++ cs') = run_from (run_from st cs) cs'.
Proof. apply fold_left_app. Qed.

Lemma run_from_snoc (st : State) (cs : list Chunk) (c : Chunk) :
  run_from st (cs ++ [c]) = step (run_from st cs) c.
Proof. rewrite run_from_app; reflexivity. Qed.

Lemma snapshots_from_length (cs : list Chunk) :
  forall st, length (snapshots_from st cs) = length cs.
Proof. induction cs as [|c cs IH]; intros st; simpl; [|rewrite IH]; auto. Qed.

(** The snapshot at index [k] shows the state after the first [k + 1]
    chunks. *)
Lemma snapshots_from_nth (cs : list Chunk) :
  forall st k,
    k < length cs ->
    nth_error (snapshots_from st cs) k
    = Some (snapshot_of (run_from st (firstn (S k) cs))).
Proof.
  induction cs as [|c cs IH]; intros st k Hk; simpl in Hk; [lia|].
  destruct k as [|k].
  - reflexivity.
  - change (nth_error (snapshots_from (step st c) cs) k
            = Some (snapshot_of (run_from (step st c) (firstn (S k) cs)))).
    apply IH; lia.
Qed.

Lemma snapshots_nth_inv (cs : list Chunk) (k : nat) (snap : Snapshot) :
  nth_error (snapshots cs) k = Some snap ->
  k < length cs /\ snap = snapshot_of (run_from initial (firstn (S k) cs)).
Proof.
  intros H.
  assert (Hk : k < length cs).
  { rewrite <- (snapshots_from_length cs initial).
    apply nth_error_Some; unfold snapshots in H; congruence. }
  split; [exact Hk|].
  unfold snapshots in H; rewrite (snapshots_from_nth _ _ Hk) in H.
  congruence.
Qed.

Lemma fullText_run_from (cs : list Chunk) :
  forall st, fullText (run_from st cs) = fullText st ++ buffer cs.
Proof.
  induction cs as [|c cs IH]; intros st; simpl.
  - now rewrite app_nil_r.
  - change (fullText (run_from (step st c) cs)
            = fullText st ++ or_empty (chunk_text c) ++ buffer cs).
    rewrite IH; simpl. now rewrite <- app_assoc.
Qed.

Lemma emitted_yielded (l : list Snapshot) (tl : list Event) :
  flat_map (fun ev => match ev with EvYield i => [i] | _ => [] end)
    (map (fun s => EvYield (ItemSnapshot s)) l ++ tl)
  = map ItemSnapshot l
    ++ flat_map (fun ev => match ev with EvYield i => [i] | _ => [] end) tl.
Proof. induction l as [|s l IH]; simpl; [|rewrite IH]; reflexivity. Qed.

Lemma snapshots_of_items (l : list Snapshot) (tl : list Item) :
  flat_map (fun i => match i with ItemSnapshot s => [s] | ItemDone => [] end)
    (map ItemSnapshot l ++ tl)
  = l ++ flat_map
           (fun i => match i with ItemSnapshot s => [s] | ItemDone => [] end)
           tl.
Proof. induction l as [|s l IH]; simpl; [|rewrite IH]; reflexivity. Qed.

(** What the consumer receives, case by case. *)
Lemma emitted_cases (env : Env) (query : jsstring) (up : Upstream) :
  emitted (performSearchStream env query up)
  = if truthy_opt (GEMINI_API_KEY env) then
      match up with
      | RequestFails _ => []
      | Streams cs None => map ItemSnapshot (snapshots cs) ++ [ItemDone]
      | Streams cs (Some _) => map ItemSnapshot (snapshots cs)
      end
    else [].
Proof.
  unfold emitted, performSearchStream.
  destruct (truthy_opt (GEMINI_API_KEY env)); simpl; [|reflexivity].
  destruct up as [e|cs [e|]]; simpl; try reflexivity;
    rewrite emitted_yielded; simpl; auto using app_nil_r.
Qed.

Lemma emitted_snapshots_cases (env : Env) (query : jsstring) (up : Upstream) :
  emitted_snapshots (performSearchStream env query up)
  = if truthy_opt (GEMINI_API_KEY env) then
      match up with
      | RequestFails _ => []
      | Streams cs _ => snapshots cs
      end
    else [].
Proof.
  unfold emitted_snapshots; rewrite emitted_cases.
  destruct (truthy_opt (GEMINI_API_KEY env)); [|reflexivity].
  destruct up as [e|cs [e|]]; try reflexivity.
  - rewrite <- (app_nil_r (map ItemSnapshot (snapshots cs))).
    rewrite snapshots_of_items; simpl; now rewrite app_nil_r.
  - rewrite snapshots_of_items; simpl; now rewrite app_nil_r.
Qed.

(** Every emitted snapshot is a snapshot of the loop over some chunks. *)
Lemma emitted_snapshots_are_snapshots (env : Env) (query : jsstring)
  (up : Upstream) :
  exists cs, emitted_snapshots (performSearchStream env query up)
             = snapshots cs.
Proof.
  rewrite emitted_snapshots_cases.
  destruct (truthy_opt (GEMINI_API_KEY env)); [|exists []; reflexivity].
  destruct up as [e|cs f]; [exists []|exists cs]; reflexivity.
Qed.

(* ================================================================== *)
(** ** Map: insertion order and last-write-wins *)
(* ================================================================== *)

Lemma find_app {A : Type} (f : A -> bool) (l1 l2 : list A) :
  find f (l1 ++ l2)
  = match find f l1 with Some x => Some x | None => find f l2 end.
Proof. induction l1 as [|x l1 IH]; simpl; [|destruct (f x)]; auto. Qed.

Lemma find_map {A B : Type} (f : B -> bool) (g : A -> B) (l : list A) :
  find f (map g l) = option_map g (find (fun x => f (g x)) l).
Proof. induction l as [|x l IH]; simpl; [|destruct (f (g x))]; auto. Qed.

Lemma filter_filter {A : Type} (p q : A -> bool) (l : list A) :
  filter p (filter q l) = filter (fun x => q x && p x) l.
Proof.
  induction l as [|x l IH]; simpl; auto.
  destruct (q x); simpl; [destruct (p x)|]; rewrite IH; auto.
Qed.

Section MapFacts.

Variables K V : Type.
Variable key_eqb : K -> K -> bool.
Hypothesis key_eqb_eq : forall x y, key_eqb x y = true <-> x = y.

Local Abbreviation map_t := (JsMap.t K V).
Local Abbreviation set := (JsMap.set key_eqb).
Local Abbreviation get := (JsMap.get key_eqb).
Local Abbreviation keys := (@JsMap.keys K V).
Local Abbreviation from_list := (fold_left (fun m e => set m (fst e) (snd e))).

Lemma key_eqb_refl (k : K) : key_eqb k k = true.
Proof. now apply key_eqb_eq. Qed.

Lemma key_eqb_false (x y : K) : key_eqb x y = false <-> x <> y.
Proof.
  rewrite <- key_eqb_eq; destruct (key_eqb x y); split; congruence.
Qed.

(** Writing to a key that is present does not move it. *)
Lemma keys_set_in (m : map_t) (k : K) (v : V) :
  In k (keys m) -> keys (set m k v) = keys m.
Proof.
  induction m as [|[k' v'] m IH]; simpl; [tauto|]; intros Hin.
  destruct (key_eqb k' k) eqn:E; simpl; [reflexivity|].
  apply key_eqb_false in E.
  destruct Hin as [-> |Hin]; [congruence|]. now rewrite IH.
Qed.

(** Writing to a new key appends it. *)
Lemma set_notin (m : map_t) (k : K) (v : V) :
  ~ In k (keys m) -> set m k v = m ++ [(k, v)].
Proof.
  induction m as [|[k' v'] m IH]; simpl; [reflexivity|]; intros Hnin.
  destruct (key_eqb k' k) eqn:E.
  - apply key_eqb_eq in E; tauto.
  - rewrite IH; tauto.
Qed.

Lemma keys_set_notin (m : map_t) (k : K) (v : V) :
  ~ In k (keys m) -> keys (set m k v) = keys m ++ [k].
Proof.
  intros H; rewrite set_notin by exact H; unfold JsMap.keys.
  now rewrite map_app.
Qed.

Lemma In_dec_keys (m : map_t) (k : K) : In k (keys m) \/ ~ In k (keys m).
Proof.
  induction m as [|[k' v'] m IH]; simpl; [tauto|].
  destruct (key_eqb k' k) eqn:E.
  - apply key_eqb_eq in E; auto.
  - apply key_eqb_false in E; tauto.
Qed.

Lemma NoDup_keys_set (m : map_t) (k : K) (v : V) :
  NoDup (keys m) -> NoDup (keys (set m k v)).
Proof.
  intros Hnd. destruct (In_dec_keys m k) as [Hin|Hnin].
  - now rewrite keys_set_in.
  - rewrite keys_set_notin by assumption.
    apply NoDup_app; repeat split; auto.
    + constructor; [simpl; tauto | constructor].
    + intros x Hx [<-|[]]; tauto.
Qed.

Lemma NoDup_keys_from_list (es : list (K * V)) :
  forall m, NoDup (keys m) -> NoDup (keys (from_list es m)).
Proof.
  induction es as [|[k v] es IH]; intros m Hm; simpl; auto.
  apply IH, NoDup_keys_set, Hm.
Qed.

Lemma NoDup_keys_from_entries (es : list (K * V)) :
  NoDup (keys (JsMap.from_entries key_eqb es)).
Proof. apply NoDup_keys_from_list; constructor. Qed.

(** Entries with pairwise distinct keys are inserted as they come. *)
Lemma from_list_NoDup (es : list (K * V)) :
  forall m, NoDup (keys (m ++ es)) -> from_list es m = m ++ es.
Proof.
  induction es as [|[k v] es IH]; intros m Hnd; simpl.
  - now rewrite app_nil_r.
  - assert (Hnin : ~ In k (keys m)).
    { unfold JsMap.keys in *; rewrite map_app in Hnd; simpl in Hnd.
      apply NoDup_remove_2 in Hnd. rewrite in_app_iff in Hnd. tauto. }
    rewrite set_notin by exact Hnin. rewrite IH; rewrite <- app_assoc; auto.
Qed.

Lemma from_entries_NoDup (m : map_t) :
  NoDup (keys m) -> JsMap.from_entries key_eqb m = m.
Proof. intros H; apply (from_list_NoDup m []); exact H. Qed.

Lemma In_keys_set (m : map_t) (k : K) (v : V) (x : K) :
  In x (keys (set m k v)) <-> In x (keys m) \/ x = k.
Proof.
  destruct (In_dec_keys m k) as [Hin|Hnin].
  - rewrite keys_set_in by assumption. split; [tauto|].
    intros [H| ->]; assumption.
  - rewrite keys_set_notin by assumption. rewrite in_app_iff; simpl.
    split; intros [H|H]; auto.
    destruct H as [<-|[]]; auto.
Qed.

Lemma In_keys_from_list (es : list (K * V)) :
  forall m x,
    In x (keys (from_list es m)) <-> In x (keys m) \/ In x (map fst es).
Proof.
  induction es as [|[k v] es IH]; intros m x; simpl; [tauto|].
  rewrite IH, In_keys_set. split; [|]; intros H; intuition auto.
Qed.

Lemma get_set (m : map_t) (k : K) (v : V) (x : K) :
  get (set m k v) x = if key_eqb k x then Some v else get m x.
Proof.
  induction m as [|[k' v'] m IH]; simpl.
  - reflexivity.
  - destruct (key_eqb k' k) eqn:E; simpl.
    + apply key_eqb_eq in E; subst. destruct (key_eqb _ x); reflexivity.
    + rewrite IH.
      destruct (key_eqb k' x) eqn:E', (key_eqb k x) eqn:E''; try reflexivity.
      apply key_eqb_eq in E', E''; subst.
      rewrite key_eqb_refl in E; discriminate.
Qed.

(** Last write wins: the value under [x] is that of the last entry written
    under [x]. *)
Lemma get_from_list (es : list (K * V)) :
  forall m x,
    get (from_list es m) x
    = match find (fun e => key_eqb (fst e) x) (rev es) with
      | Some e => Some (snd e)
      | None => get m x
      end.
Proof.
  induction es as [|[k v] es IH]; intros m x; simpl; [reflexivity|].
  rewrite IH, find_app, get_set; simpl.
  destruct (find _ (rev es)); [reflexivity|].
  destruct (key_eqb k x); reflexivity.
Qed.

Lemma get_In (m : map_t) (k : K) (v : V) :
  NoDup (keys m) -> In (k, v) m -> get m k = Some v.
Proof.
  induction m as [|[k' v'] m IH]; simpl; [tauto|]; intros Hnd Hin.
  inversion Hnd as [|? ? Hk' Hnd']; subst.
  destruct Hin as [Heq|Hin].
  - inversion Heq; subst. now rewrite key_eqb_refl.
  - destruct (key_eqb k' k) eqn:E; [|auto].
    apply key_eqb_eq in E; subst k'. exfalso; apply Hk'.
    apply (in_map fst) in Hin; exact Hin.
Qed.

End MapFacts.

(* ================================================================== *)
(** ** The source list: what [rebuild] computes *)
(* ================================================================== *)

Lemma mem_In (x : jsstring) (l : list jsstring) : mem x l = true <-> In x l.
Proof.
  unfold mem; rewrite existsb_exists; split.
  - intros [y [Hy E]]; apply eqb_eq in E; now subst.
  - intros H; exists x; split; [exact H | apply eqb_refl].
Qed.

Lemma mem_notIn (x : jsstring) (l : list jsstring) :
  mem x l = false <-> ~ In x l.
Proof. rewrite <- mem_In; destruct (mem x l); split; congruence. Qed.

Lemma keyed_set (m : JsMap.t jsstring SourceRef) (s : SourceRef) :
  keyed m -> keyed (JsMap.set JsString.eqb m (uri s) s).
Proof.
  unfold keyed; induction m as [|[k v] m IH]; simpl; intros H.
  - repeat constructor.
  - inversion H as [|? ? Hk Hm]; subst; simpl in Hk.
    destruct (JsString.eqb k (uri s)) eqn:E.
    + apply eqb_eq in E; constructor; auto.
    + constructor; auto.
Qed.

Lemma keyed_from_list (l : list SourceRef) :
  forall m,
    keyed m ->
    keyed (fold_left (fun m e => JsMap.set JsString.eqb m (fst e) (snd e))
             (entries l) m).
Proof.
  induction l as [|s l IH]; intros m Hm; simpl; auto.
  apply IH, keyed_set, Hm.
Qed.

Lemma keyed_entries (m : JsMap.t jsstring SourceRef) :
  keyed m -> entries (JsMap.values m) = m.
Proof.
  unfold keyed; induction m as [|[k v] m IH]; simpl; intros H; auto.
  inversion H as [|? ? Hk Hm]; subst; simpl in Hk.
  unfold entries in *; simpl; rewrite IH by assumption. now rewrite Hk.
Qed.

Lemma keyed_uris (m : JsMap.t jsstring SourceRef) :
  keyed m -> map uri (JsMap.values m) = JsMap.keys m.
Proof.
  unfold keyed; induction m as [|[k v] m IH]; simpl; intros H; auto.
  inversion H as [|? ? Hk Hm]; subst; simpl in Hk.
  rewrite IH by assumption. now rewrite Hk.
Qed.

Lemma map_fst_entries (l : list SourceRef) : map fst (entries l) = map uri l.
Proof. unfold entries; rewrite map_map; reflexivity. Qed.

Lemma keyed_rebuild (l : list SourceRef) :
  keyed (JsMap.from_entries JsString.eqb (entries l)).
Proof. apply keyed_from_list; constructor. Qed.

Lemma rebuild_uris_keys (l : list SourceRef) :
  map uri (rebuild l) = JsMap.keys (JsMap.from_entries JsString.eqb (entries l)).
Proof. apply keyed_uris, keyed_rebuild. Qed.

(** No [uri] occurs twice in a rebuilt list. *)
Lemma rebuild_NoDup (l : list SourceRef) : NoDup (map uri (rebuild l)).
Proof.
  rewrite rebuild_uris_keys. apply NoDup_keys_from_entries, eqb_eq.
Qed.

(** A list without duplicate [uri] is rebuilt as it is. *)
Lemma rebuild_fixed (l : list SourceRef) :
  NoDup (map uri l) -> rebuild l = l.
Proof.
  intros H. unfold rebuild. fold (entries l).
  rewrite (from_entries_NoDup _ eqb_eq).
  - unfold JsMap.values, entries; rewrite map_map; simpl. apply map_id.
  - unfold JsMap.keys; now rewrite map_fst_entries.
Qed.

(** Rebuilding an already rebuilt list extended with [l'] is rebuilding
    everything at once. *)
Lemma rebuild_app (l l' : list SourceRef) :
  rebuild (rebuild l ++ l') = rebuild (l ++ l').
Proof.
  unfold rebuild at 1 3. fold (entries (rebuild l ++ l')) (entries (l ++ l')).
  unfold entries at 1 2; rewrite !map_app; fold (entries (rebuild l))
    (entries l) (entries l').
  unfold JsMap.from_entries; rewrite !fold_left_app. f_equal. f_equal.
  change (JsMap.from_entries JsString.eqb (entries (rebuild l))
          = JsMap.from_entries JsString.eqb (entries l)).
  unfold rebuild; fold (entries l).
  rewrite keyed_entries by apply keyed_rebuild.
  apply (from_entries_NoDup _ eqb_eq), NoDup_keys_from_entries, eqb_eq.
Qed.

Lemma rebuild_In_uri (l : list SourceRef) (u : jsstring) :
  In u (map uri (rebuild l)) <-> In u (map uri l).
Proof.
  rewrite rebuild_uris_keys. unfold JsMap.from_entries.
  rewrite (In_keys_from_list _ eqb_eq); simpl.
  rewrite map_fst_entries; tauto.
Qed.

Lemma filter_ext_eq {A : Type} (p q : A -> bool) (l : list A) :
  (forall x, p x = q x) -> filter p l = filter q l.
Proof.
  intros H; induction l as [|x l IH]; simpl; [|rewrite H, IH]; auto.
Qed.

Lemma filter_all {A : Type} (l : list A) : filter (fun _ => true) l = l.
Proof. induction l as [|x l IH]; simpl; [|rewrite IH]; auto. Qed.

(** Insertion order: the keys already present keep their places; the new
    ones follow in the order in which they first appear. *)
Lemma keys_from_list_order (es : list (jsstring * SourceRef)) :
  forall m,
    JsMap.keys
      (fold_left (fun m e => JsMap.set JsString.eqb m (fst e) (snd e)) es m)
    = JsMap.keys m
      ++ filter (fun x => negb (mem x (JsMap.keys m)))
           (first_appearances (map fst es)).
Proof.
  induction es as [|[k v] es IH]; intros m; simpl.
  - now rewrite app_nil_r.
  - rewrite IH. destruct (mem k (JsMap.keys m)) eqn:E; simpl.
    + apply mem_In in E. rewrite (keys_set_in _ eqb_eq) by exact E.
      f_equal. rewrite filter_filter. apply filter_ext_eq; intros x.
      destruct (mem x (JsMap.keys m)) eqn:Ex; simpl.
      * now rewrite andb_false_r.
      * rewrite andb_true_r.
        destruct (JsString.eqb x k) eqn:Exk; [|reflexivity].
        apply eqb_eq in Exk; subst x.
        apply mem_notIn in Ex; contradiction.
    + apply mem_notIn in E. rewrite (keys_set_notin _ eqb_eq) by exact E.
      rewrite <- app_assoc; simpl. do 2 f_equal.
      rewrite filter_filter. apply filter_ext_eq; intros x.
      unfold mem; rewrite existsb_app; simpl. rewrite orb_false_r.
      rewrite negb_orb. apply andb_comm.
Qed.

(** The rebuilt list carries the keys in order of first appearance. *)
Lemma rebuild_first_appearances (l : list SourceRef) :
  map uri (rebuild l) = first_appearances (map uri l).
Proof.
  rewrite rebuild_uris_keys. unfold JsMap.from_entries.
  rewrite keys_from_list_order; simpl.
  rewrite filter_all. now rewrite map_fst_entries.
Qed.

(** Each entry of the rebuilt list is the last one given under its key. *)
Lemma rebuild_last (l : list SourceRef) (s : SourceRef) :
  In s (rebuild l) -> last_occurrence (uri s) l = Some s.
Proof.
  intros Hin. unfold rebuild in Hin. fold (entries l) in Hin.
  set (m := JsMap.from_entries JsString.eqb (entries l)) in *.
  assert (Hk : keyed m) by apply keyed_rebuild.
  assert (Hnd : NoDup (JsMap.keys m))
    by apply NoDup_keys_from_entries, eqb_eq.
  assert (Hm : In (uri s, s) m).
  { rewrite <- (keyed_entries Hk). unfold entries.
    apply (in_map (fun s => (uri s, s))), Hin. }
  pose proof (get_In _ eqb_eq _ _ _ Hnd Hm) as Hget.
  unfold m, JsMap.from_entries in Hget.
  rewrite (get_from_list _ eqb_eq) in Hget; simpl in Hget.
  unfold last_occurrence. unfold entries in Hget.
  rewrite <- map_rev, find_map in Hget; simpl in Hget.
  destruct (find (fun x => JsString.eqb (uri x) (uri s)) (rev l));
    simpl in Hget; congruence.
Qed.

(** The accumulator after any chunks is the rebuild of every citation
    received so far. *)
Lemma sources_closed_form (cs : list Chunk) :
  cur_sources (run_from initial cs) = rebuild (all_citations cs).
Proof.
  induction cs as [|c cs IH] using rev_ind.
  - reflexivity.
  - rewrite run_from_snoc; simpl. unfold next_sources. rewrite IH.
    unfold all_citations; rewrite flat_map_app; simpl; rewrite app_nil_r.
    fold (all_citations cs).
    destruct (chunks_of c) as [|g gs] eqn:E.
    + simpl. unfold new_sources; simpl. now rewrite app_nil_r.
    + cbn [length Nat.ltb Nat.leb]. apply rebuild_app.
Qed.

Lemma sources_snapshot (cs : list Chunk) (k : nat) (snap : Snapshot) :
  nth_error (snapshots cs) k = Some snap ->
  sources snap = rebuild (all_citations (firstn (S k) cs)).
Proof.
  intros H; apply snapshots_nth_inv in H; destruct H as [_ ->].
  simpl. apply sources_closed_form.
Qed.

(* ================================================================== *)
(** ** The regular expression: what [/^추천검색어:.*$/m] removes *)
(* ================================================================== *)

(** [.*$] with the [m] flag runs to the end of the line. *)
Lemma match_dotstar_eol (s : jsstring) :
  forall prev,
    JsRegExp.match_nodes true [JsRegExp.DotStar; JsRegExp.Eol] prev s
    = Some (line_end s).
Proof.
  induction s as [|x s IH]; intros prev.
  - reflexivity.
  - cbn [JsRegExp.match_nodes line_end].
    destruct (is_line_terminator x) eqn:E.
    + cbn [JsRegExp.at_eol]. rewrite E. reflexivity.
    + cbn [JsRegExp.match_nodes] in IH. rewrite IH. reflexivity.
Qed.

Lemma match_literal_line (lit : jsstring) :
  forall prev s,
    JsRegExp.match_nodes true
      (JsRegExp.literal lit ++ [JsRegExp.DotStar; JsRegExp.Eol]) prev s
    = if startsWith lit s then Some (line_end (skipn (length lit) s))
      else None.
Proof.
  induction lit as [|c lit IH]; intros prev s.
  - apply match_dotstar_eol.
  - change (JsRegExp.literal (c :: lit) ++ [JsRegExp.DotStar; JsRegExp.Eol])
      with (JsRegExp.Lit c
              :: (JsRegExp.literal lit
                    ++ [JsRegExp.DotStar; JsRegExp.Eol])).
    cbn [JsRegExp.match_nodes startsWith].
    destruct s as [|x s]; [reflexivity|].
    rewrite (N.eqb_sym x c). destruct (N.eqb c x); simpl; [apply IH|reflexivity].
Qed.

Lemma line_end_skip_prefix (p : jsstring) :
  forall s,
    forallb (fun c => negb (is_line_terminator c)) p = true ->
    startsWith p s = true ->
    line_end (skipn (length p) s) = line_end s.
Proof.
  induction p as [|c p IH]; intros s Hp Hs; [reflexivity|].
  destruct s as [|x s]; [discriminate|]. simpl in Hp, Hs.
  apply andb_true_iff in Hp, Hs. destruct Hp as [Hc Hp], Hs as [Hx Hs].
  apply N.eqb_eq in Hx; subst x. simpl.
  destruct (is_line_terminator c); [discriminate|]. now apply IH.
Qed.

Lemma marker_has_no_line_terminator :
  forallb (fun c => negb (is_line_terminator c)) MARKER = true.
Proof. reflexivity. Qed.

(** The regular-expression replacement of line 61 empties the first line
    that begins with the marker, and nothing else. *)
Lemma replace_from_marker_line (s : jsstring) :
  forall prev,
    JsRegExp.replace_from MARKER_LINE [] prev s
    = remove_first_marker_line (JsRegExp.at_bol true prev) s.
Proof.
  assert (Hm : forall prev t,
             JsRegExp.match_nodes true (JsRegExp.nodes MARKER_LINE) prev t
             = if JsRegExp.at_bol true prev && startsWith MARKER t
               then Some (line_end t) else None).
  { intros prev t. unfold MARKER_LINE; cbn [JsRegExp.nodes JsRegExp.match_nodes].
    destruct (JsRegExp.at_bol true prev); [|reflexivity].
    rewrite match_literal_line; cbn [andb].
    destruct (startsWith MARKER t) eqn:E; [|reflexivity].
    now rewrite (line_end_skip_prefix _ _ marker_has_no_line_terminator E). }
  induction s as [|x s IH]; intros prev.
  - cbn [JsRegExp.replace_from remove_first_marker_line].
    change (JsRegExp.multiline MARKER_LINE) with true. rewrite Hm.
    destruct (JsRegExp.at_bol true prev && startsWith MARKER []);
      reflexivity.
  - cbn [JsRegExp.replace_from remove_first_marker_line].
    change (JsRegExp.multiline MARKER_LINE) with true. rewrite Hm.
    destruct (JsRegExp.at_bol true prev && startsWith MARKER (x :: s));
      [reflexivity|].
    rewrite IH. reflexivity.
Qed.

Lemma replace_marker_line (s : jsstring) :
  JsRegExp.replace MARKER_LINE [] s = remove_first_marker_line true s.
Proof. apply (replace_from_marker_line s None). Qed.

(* ================================================================== *)
(** ** Properties of the stream *)
(* ================================================================== *)

Lemma firstn_le_app {A : Type} (l : list A) :
  forall i j, i <= j -> exists l', firstn j l = firstn i l ++ l'.
Proof.
  induction l as [|x l IH]; intros i j Hij.
  - exists []; now rewrite !firstn_nil.
  - destruct i as [|i].
    + exists (firstn j (x :: l)); reflexivity.
    + destruct j as [|j]; [lia|].
      destruct (IH i j ltac:(lia)) as [l' Hl'].
      exists l'; simpl; now rewrite Hl'.
Qed.

Lemma all_citations_app (cs cs' : list Chunk) :
  all_citations (cs ++ cs') = all_citations cs ++ all_citations cs'.
Proof. apply flat_map_app. Qed.

(** C1.  Whatever the environment, the query and the behaviour of the
    service, no snapshot the generator emits (the final one included) lists
    two sources with the same [uri]. *)
Theorem C1_sources_have_distinct_uris
  (env : Env) (query : jsstring) (up : Upstream) :
  Forall (fun snap => NoDup (map uri (sources snap)))
    (emitted_snapshots (performSearchStream env query up)).
Proof.
  destruct (emitted_snapshots_are_snapshots env query up) as [cs ->].
  apply Forall_forall; intros snap Hin.
  apply In_nth_error in Hin; destruct Hin as [k Hk].
  rewrite (sources_snapshot _ _ Hk). apply rebuild_NoDup.
Qed.

(** C3, as the code has it.  When [GEMINI_API_KEY] is missing from the
    environment (or is the empty string), the call of [performSearchStream]
    does not throw: it returns the generator.  The first [next()] on it is
    rejected with the missing-key error, and the body has done nothing
    before: no client was built, no request was sent and nothing was
    yielded. *)
Theorem C3_missing_key_rejects_first_next
  (env : Env) (query : jsstring) (up : Upstream) :
  GEMINI_API_KEY env = None \/ GEMINI_API_KEY env = Some [] ->
  exists g,
    AsyncGenerator.call env query = AsyncGenerator.Normal g
    /\ AsyncGenerator.first_next g up = AsyncGenerator.Rejected MISSING_KEY
    /\ trace (AsyncGenerator.body g up) = []
    /\ contacted_upstream (AsyncGenerator.body g up) = false
    /\ emitted (AsyncGenerator.body g up) = [].
Proof.
  intros H. apply truthy_opt_false in H.
  eexists; split; [reflexivity|].
  unfold AsyncGenerator.first_next; cbn [AsyncGenerator.body].
  unfold emitted, contacted_upstream, performSearchStream; rewrite H.
  cbn. auto.
Qed.

Lemma C3_missing_key_rejects_first_next_witness :
  (GEMINI_API_KEY {| GEMINI_API_KEY := None |} = None
   \/ GEMINI_API_KEY {| GEMINI_API_KEY := None |} = Some [])
  /\ exists g,
       AsyncGenerator.call {| GEMINI_API_KEY := None |} (js "cat")
       = AsyncGenerator.Normal g
       /\ AsyncGenerator.first_next g (Streams [text_chunk (js "meow")] None)
          = AsyncGenerator.Rejected MISSING_KEY
       /\ trace (AsyncGenerator.body g (Streams [text_chunk (js "meow")] None))
          = []
       /\ contacted_upstream
            (AsyncGenerator.body g (Streams [text_chunk (js "meow")] None))
          = false
       /\ emitted
            (AsyncGenerator.body g (Streams [text_chunk (js "meow")] None))
          = [].
Proof.
  assert (H : GEMINI_API_KEY {| GEMINI_API_KEY := None |} = None
              \/ GEMINI_API_KEY {| GEMINI_API_KEY := None |} = Some [])
    by (left; reflexivity).
  split; [exact H|].
  exact (@C3_missing_key_rejects_first_next {| GEMINI_API_KEY := None |}
           (js "cat") (Streams [text_chunk (js "meow")] None) H).
Defined.

(** C3, as stated, fails: with the key missing the call itself completes
    normally, with the generator as its value, so nothing is thrown
    synchronously; the error arrives as the rejection of the first
    [next()]. *)
Lemma C3_counterexample :
  ~ (exists e,
        AsyncGenerator.call {| GEMINI_API_KEY := None |} (js "cat")
        = AsyncGenerator.Abrupt e)
  /\ exists g,
       AsyncGenerator.call {| GEMINI_API_KEY := None |} (js "cat")
       = AsyncGenerator.Normal g
       /\ AsyncGenerator.first_next g (Streams [] None)
          = AsyncGenerator.Rejected MISSING_KEY.
Proof.
  split.
  - intros [e H]; discriminate.
  - eexists; split; reflexivity.
Qed.

(** C4.  With the key present and a service that delivers [n] chunks and
    then ends, the generator yields one snapshot per chunk and then the
    terminal marker, [n + 1] items in all, and returns. *)
Theorem C4_one_snapshot_per_chunk_then_done
  (env : Env) (query : jsstring) (cs : list Chunk) :
  truthy_opt (GEMINI_API_KEY env) = true ->
  let r := performSearchStream env query (Streams cs None) in
  emitted r = map ItemSnapshot (snapshots cs) ++ [ItemDone]
  /\ length (snapshots cs) = length cs
  /\ length (emitted r) = length cs + 1
  /\ outcome r = Returned.
Proof.
  intros Hkey r. unfold r. rewrite emitted_cases, Hkey.
  repeat split.
  - apply snapshots_from_length.
  - rewrite length_app, length_map; unfold snapshots.
    rewrite snapshots_from_length; reflexivity.
  - unfold performSearchStream; rewrite Hkey; reflexivity.
Qed.

Lemma C4_one_snapshot_per_chunk_then_done_witness :
  truthy_opt (GEMINI_API_KEY with_key) = true
  /\ length (emitted (performSearchStream with_key (js "cat")
                        (Streams [text_chunk (js "a"); text_chunk (js "b")]
                           None)))
     = 3.
Proof.
  split; [reflexivity|].
  apply (C4_one_snapshot_per_chunk_then_done with_key (js "cat")
           [text_chunk (js "a"); text_chunk (js "b")]).
  reflexivity.
Defined.

(** C6.  A stream of one chunk whose text is the marker line
    ["추천검색어: 고양이"], a line feed and ["고양이는 포유류입니다."], and
    which carries no web citation, yields exactly one snapshot before the
    terminal marker: the second line as [text], ["고양이"] as [suggestion]
    and no sources. *)
Theorem C6_single_chunk_scenario
  (env : Env) (query : jsstring) (c : Chunk) :
  truthy_opt (GEMINI_API_KEY env) = true ->
  chunk_text c
  = Some (js "추천검색어: 고양이" ++ LF ++ js "고양이는 포유류입니다.") ->
  web_entries (chunks_of c) = [] ->
  emitted (performSearchStream env query (Streams [c] None))
  = [ItemSnapshot {| text := js "고양이는 포유류입니다.";
                     suggestion := Some (js "고양이");
                     sources := [] |};
     ItemDone].
Proof.
  intros Hkey Htext Hweb. rewrite emitted_cases, Hkey.
  unfold snapshots; simpl. unfold snapshot_of, step; simpl.
  rewrite Htext. unfold next_sources, new_sources. rewrite Hweb.
  replace (if 0 <? length (chunks_of c) then rebuild ([] ++ map source_of_web [])
           else []) with (@nil SourceRef)
    by (destruct (0 <? length (chunks_of c)); reflexivity).
  vm_compute. reflexivity.
Qed.

Lemma C6_single_chunk_scenario_witness :
  truthy_opt (GEMINI_API_KEY with_key) = true
  /\ emitted (performSearchStream with_key (js "고양히")
                (Streams
                   [text_chunk (js "추천검색어: 고양이" ++ LF
                                ++ js "고양이는 포유류입니다.")]
                   None))
     = [ItemSnapshot {| text := js "고양이는 포유류입니다.";
                        suggestion := Some (js "고양이");
                        sources := [] |};
        ItemDone].
Proof.
  split; [reflexivity|].
  apply (C6_single_chunk_scenario with_key (js "고양히")
           (text_chunk (js "추천검색어: 고양이" ++ LF
                        ++ js "고양이는 포유류입니다."))).
  - reflexivity.
  - reflexivity.
  - reflexivity.
Defined.

(** *** The suggestion *)

(** A non-empty suggestion closes the guard of line 38 for good. *)
Lemma next_suggestion_kept (s ft : jsstring) :
  s <> [] -> next_suggestion (Some s) ft = Some s.
Proof. intros H; destruct s; [contradiction|reflexivity]. Qed.

(** A defined suggestion is never replaced by [undefined]. *)
Lemma next_suggestion_defined (old : option jsstring) (ft : jsstring) :
  old <> None -> next_suggestion old ft <> None.
Proof.
  intros H; unfold next_suggestion.
  destruct (negb (truthy_opt old) && includes MARKER ft); [|exact H].
  destruct (find _ _) as [line|]; [|exact H].
  destruct (truthy line && _); [discriminate|exact H].
Qed.

Lemma suggestion_kept_along (extra : list Chunk) :
  forall st s,
    cur_suggestion st = Some s -> s <> [] ->
    cur_suggestion (run_from st extra) = Some s.
Proof.
  induction extra as [|c extra IH]; intros st s Hs Hne; [exact Hs|].
  apply (IH (step st c)); [|exact Hne].
  simpl; rewrite Hs. now apply next_suggestion_kept.
Qed.

Lemma suggestion_defined_along (extra : list Chunk) :
  forall st,
    cur_suggestion st <> None -> cur_suggestion (run_from st extra) <> None.
Proof.
  induction extra as [|c extra IH]; intros st Hs; [exact Hs|].
  apply (IH (step st c)). simpl. now apply next_suggestion_defined.
Qed.

(** Two snapshots of one stream: the later state is reached from the
    earlier one by consuming the chunks in between. *)
Lemma later_snapshot (cs : list Chunk) (i j : nat) (si sj : Snapshot) :
  i <= j ->
  nth_error (snapshots cs) i = Some si ->
  nth_error (snapshots cs) j = Some sj ->
  exists sti extra,
    si = snapshot_of sti /\ sj = snapshot_of (run_from sti extra)
    /\ sti = run_from initial (firstn (S i) cs)
    /\ firstn (S j) cs = firstn (S i) cs ++ extra.
Proof.
  intros Hij Hi Hj.
  apply snapshots_nth_inv in Hi, Hj. destruct Hi as [_ ->], Hj as [_ ->].
  destruct (firstn_le_app cs (i := S i) (j := S j) ltac:(lia)) as [extra He].
  exists (run_from initial (firstn (S i) cs)), extra.
  rewrite He, run_from_app. auto.
Qed.

(** C2.  Within one stream, once the suggestion of an emitted snapshot is
    set, that is a non-empty string, every later snapshot carries that same
    string: its suggestion is neither undefined nor empty. *)
Theorem C2_set_suggestion_stays_set
  (env : Env) (query : jsstring) (up : Upstream)
  (i j : nat) (si sj : Snapshot) (s : jsstring) :
  i <= j ->
  nth_error (emitted_snapshots (performSearchStream env query up)) i
  = Some si ->
  nth_error (emitted_snapshots (performSearchStream env query up)) j
  = Some sj ->
  suggestion si = Some s ->
  s <> [] ->
  suggestion sj = Some s
  /\ suggestion sj <> None
  /\ suggestion sj <> Some [].
Proof.
  destruct (emitted_snapshots_are_snapshots env query up) as [cs ->].
  intros Hij Hi Hj Hs Hne.
  destruct (later_snapshot _ Hij Hi Hj) as (sti & extra & -> & -> & _ & _).
  simpl in Hs |- *.
  rewrite (suggestion_kept_along extra sti Hs Hne).
  repeat split; [discriminate|congruence].
Qed.

Lemma C2_set_suggestion_stays_set_witness :
  let r := performSearchStream with_key (js "q")
             (Streams [text_chunk (js "추천검색어: cat" ++ LF ++ js "cats");
                       text_chunk (js "meow")] None) in
  let si := {| text := js "cats"; suggestion := Some (js "cat");
               sources := [] |} in
  let sj := {| text := js "catsmeow"; suggestion := Some (js "cat");
               sources := [] |} in
  0 <= 1
  /\ nth_error (emitted_snapshots r) 0 = Some si
  /\ nth_error (emitted_snapshots r) 1 = Some sj
  /\ suggestion si = Some (js "cat")
  /\ js "cat" <> []
  /\ suggestion sj = Some (js "cat")
  /\ suggestion sj <> None
  /\ suggestion sj <> Some [].
Proof.
  intros r si sj.
  assert (H0 : 0 <= 1) by lia.
  assert (Hi : nth_error (emitted_snapshots r) 0 = Some si)
    by (vm_compute; reflexivity).
  assert (Hj : nth_error (emitted_snapshots r) 1 = Some sj)
    by (vm_compute; reflexivity).
  assert (Hs : suggestion si = Some (js "cat")) by reflexivity.
  assert (Hne : js "cat" <> []) by (vm_compute; discriminate).
  split; [exact H0|]. split; [exact Hi|]. split; [exact Hj|].
  split; [exact Hs|]. split; [exact Hne|].
  exact (@C2_set_suggestion_stays_set with_key (js "q")
           (Streams [text_chunk (js "추천검색어: cat" ++ LF ++ js "cats");
                     text_chunk (js "meow")] None)
           0 1 si sj (js "cat") H0 Hi Hj Hs Hne).
Defined.

(** A marker line with nothing after the marker sets no suggestion: the
    field is the empty string, the guard of line 38 stays open, and the
    field can stay empty. *)
Example empty_suggestion_is_not_set :
  map suggestion
    (emitted_snapshots
       (performSearchStream with_key (js "q")
          (Streams [text_chunk (js "추천검색어:" ++ LF ++ js "abc");
                    text_chunk (js "def")] None)))
  = [Some []; Some []].
Proof. vm_compute; reflexivity. Qed.

(** *** The text *)

(** Snapshots are emitted only when the key is present, and then they are
    the snapshots of the loop. *)
Ltac snapshots_of_stream k :=
  rewrite emitted_snapshots_cases;
  destruct (truthy_opt (GEMINI_API_KEY _)); [|destruct k; discriminate].

(** C7, as the code has it.  The [text] of the snapshot emitted for chunk
    [k] is the accumulated buffer with the first line that begins with the
    marker emptied (from the marker to the end of that line; lines end at a
    line terminator, which stays), then trimmed.  Later marker lines are
    kept. *)
Theorem C7_text_drops_first_marker_line
  (env : Env) (query : jsstring) (cs : list Chunk) (failure : option JsError)
  (k : nat) (snap : Snapshot) :
  nth_error
    (emitted_snapshots (performSearchStream env query (Streams cs failure))) k
  = Some snap ->
  text snap
  = trim (remove_first_marker_line true (buffer (firstn (S k) cs))).
Proof.
  snapshots_of_stream k.
  intros H; apply snapshots_nth_inv in H; destruct H as [_ ->].
  simpl. rewrite replace_marker_line, fullText_run_from. reflexivity.
Qed.

Lemma C7_text_drops_first_marker_line_witness :
  nth_error
    (emitted_snapshots
       (performSearchStream with_key (js "q")
          (Streams [text_chunk (js "추천검색어: cat" ++ LF);
                    text_chunk (js "cats")] None))) 1
  = Some {| text := js "cats"; suggestion := Some (js "cat"); sources := [] |}
  /\ js "cats"
     = trim (remove_first_marker_line true
               (js "추천검색어: cat" ++ LF ++ js "cats")).
Proof.
  split; [vm_compute; reflexivity|].
  apply (C7_text_drops_first_marker_line with_key (js "q")
           [text_chunk (js "추천검색어: cat" ++ LF); text_chunk (js "cats")]
           None 1
           (snap := {| text := js "cats"; suggestion := Some (js "cat");
                       sources := [] |})).
  vm_compute; reflexivity.
Defined.

(** C7, as stated, fails: with two marker lines in the buffer only the
    first is removed.  The emitted text still begins with a marker line and
    differs from the buffer with every marker line removed. *)
Lemma C7_counterexample :
  let buf := js "추천검색어: a" ++ LF ++ js "추천검색어: b" ++ LF ++ js "foo" in
  exists snap,
    emitted_snapshots
      (performSearchStream with_key (js "q") (Streams [text_chunk buf] None))
    = [snap]
    /\ text snap = js "추천검색어: b" ++ LF ++ js "foo"
    /\ trim (remove_every_marker_line true false buf) = js "foo"
    /\ text snap <> trim (remove_every_marker_line true false buf).
Proof.
  exists {| text := js "추천검색어: b" ++ LF ++ js "foo";
            suggestion := Some (js "a"); sources := [] |}.
  split; [vm_compute; reflexivity|].
  split; [reflexivity|].
  split; [vm_compute; reflexivity|].
  vm_compute; discriminate.
Qed.

(** *** The sources *)

(** C8.  In every emitted snapshot the sources are ordered by the first
    appearance of their [uri] among the citations received so far, and the
    entry under a [uri] is the one built from the most recent citation with
    that [uri]. *)
Theorem C8_first_appearance_order_last_title
  (env : Env) (query : jsstring) (cs : list Chunk) (failure : option JsError)
  (k : nat) (snap : Snapshot) :
  nth_error
    (emitted_snapshots (performSearchStream env query (Streams cs failure))) k
  = Some snap ->
  let seen := all_citations (firstn (S k) cs) in
  map uri (sources snap) = first_appearances (map uri seen)
  /\ (forall s, In s (sources snap) -> last_occurrence (uri s) seen = Some s).
Proof.
  snapshots_of_stream k.
  intros H seen. rewrite (sources_snapshot _ _ H). fold seen. split.
  - apply rebuild_first_appearances.
  - intros s; apply rebuild_last.
Qed.

Lemma C8_first_appearance_order_last_title_witness :
  let cs := [cited_chunk (Some (js "x"))
               [page "a" "A1"; page "b" "B1"];
             cited_chunk None
               [page "c" "C1"; page "a" "A2"]] in
  let final := {| text := js "x"; suggestion := None;
                  sources := [ {| uri := js "a"; title := js "A2" |};
                               {| uri := js "b"; title := js "B1" |};
                               {| uri := js "c"; title := js "C1" |} ] |} in
  nth_error
    (emitted_snapshots (performSearchStream with_key (js "q") (Streams cs None)))
    1 = Some final
  /\ map uri (sources final)
     = first_appearances (map uri (all_citations (firstn 2 cs))).
Proof.
  intros cs final.
  split; [vm_compute; reflexivity|].
  apply (C8_first_appearance_order_last_title with_key (js "q") cs None 1
           (snap := final)).
  vm_compute; reflexivity.
Defined.

(** C9.  A [uri] listed in a snapshot is listed in every later snapshot of
    the same stream. *)
Theorem C9_sources_only_grow
  (env : Env) (query : jsstring) (up : Upstream)
  (i j : nat) (si sj : Snapshot) (u : jsstring) :
  i <= j ->
  nth_error (emitted_snapshots (performSearchStream env query up)) i
  = Some si ->
  nth_error (emitted_snapshots (performSearchStream env query up)) j
  = Some sj ->
  In u (map uri (sources si)) -> In u (map uri (sources sj)).
Proof.
  destruct (emitted_snapshots_are_snapshots env query up) as [cs ->].
  intros Hij Hi Hj.
  rewrite (sources_snapshot _ _ Hi), (sources_snapshot _ _ Hj).
  rewrite !rebuild_In_uri.
  destruct (firstn_le_app cs (i := S i) (j := S j) ltac:(lia)) as [extra ->].
  rewrite all_citations_app, map_app, in_app_iff. auto.
Qed.

Lemma C9_sources_only_grow_witness :
  let r := performSearchStream with_key (js "q")
             (Streams [cited_chunk (Some (js "x")) [page "a" "A1"];
                       cited_chunk None [untitled_page "b"]] None) in
  let si := {| text := js "x"; suggestion := None;
               sources := [ {| uri := js "a"; title := js "A1" |} ] |} in
  let sj := {| text := js "x"; suggestion := None;
               sources := [ {| uri := js "a"; title := js "A1" |};
                            {| uri := js "b"; title := js "b" |} ] |} in
  0 <= 1
  /\ nth_error (emitted_snapshots r) 0 = Some si
  /\ nth_error (emitted_snapshots r) 1 = Some sj
  /\ In (js "a") (map uri (sources si))
  /\ In (js "a") (map uri (sources sj)).
Proof.
  intros r si sj.
  split; [lia|].
  split; [vm_compute; reflexivity|].
  split; [vm_compute; reflexivity|].
  split; [left; reflexivity|].
  apply (C9_sources_only_grow with_key (js "q")
           (Streams [cited_chunk (Some (js "x")) [page "a" "A1"];
                     cited_chunk None [untitled_page "b"]] None)
           (i := 0) (j := 1) (si := si) (sj := sj)).
  - lia.
  - vm_compute; reflexivity.
  - vm_compute; reflexivity.
  - left; reflexivity.
Defined.

Lemma all_citations_two (c1 c2 : Chunk) :
  all_citations [c1; c2]
  = new_sources (chunks_of c1) ++ new_sources (chunks_of c2).
Proof. unfold all_citations; simpl; now rewrite app_nil_r. Qed.

(** C5, as the code has it.  In a stream of two chunks that each carry one
    web citation, with the same [uri] and different titles, the final
    snapshot lists exactly one source: the one built from the later
    citation.  Its title is the later citation's title when that is a
    non-empty string, and the [uri] when it is missing or empty. *)
Theorem C5_same_uri_last_write_wins
  (env : Env) (query : jsstring) (c1 c2 : Chunk) (failure : option JsError)
  (w1 w2 : GroundingChunkWeb) (final : Snapshot) :
  web_entries (chunks_of c1) = [w1] ->
  web_entries (chunks_of c2) = [w2] ->
  web_uri w1 = web_uri w2 ->
  web_title w1 <> web_title w2 ->
  nth_error
    (emitted_snapshots
       (performSearchStream env query (Streams [c1; c2] failure))) 1
  = Some final ->
  sources final = [source_of_web w2]
  /\ uri (source_of_web w2) = web_uri w2
  /\ (forall t, web_title w2 = Some t -> t <> [] ->
                title (source_of_web w2) = t)
  /\ (web_title w2 = None \/ web_title w2 = Some [] ->
      title (source_of_web w2) = web_uri w2).
Proof.
  intros H1 H2 Huri _.
  rewrite emitted_snapshots_cases.
  destruct (truthy_opt (GEMINI_API_KEY env)); [|discriminate].
  intros H. rewrite (sources_snapshot _ _ H).
  change (firstn 2 [c1; c2]) with [c1; c2].
  rewrite all_citations_two. unfold new_sources; rewrite H1, H2.
  repeat split.
  - unfold rebuild, JsMap.from_entries; simpl.
    rewrite Huri, eqb_refl. reflexivity.
  - intros t Ht Hne. unfold source_of_web; rewrite Ht; simpl.
    destruct t; [contradiction|reflexivity].
  - intros [Ht|Ht]; unfold source_of_web; rewrite Ht; reflexivity.
Qed.

Lemma C5_same_uri_last_write_wins_witness :
  let c1 := cited_chunk (Some (js "x")) [page "u" "Old"] in
  let c2 := cited_chunk (Some (js "y")) [page "u" "New"] in
  let final := {| text := js "xy"; suggestion := None;
                  sources := [ {| uri := js "u"; title := js "New" |} ] |} in
  web_uri (page "u" "Old") = web_uri (page "u" "New")
  /\ web_title (page "u" "Old") <> web_title (page "u" "New")
  /\ nth_error
       (emitted_snapshots
          (performSearchStream with_key (js "q") (Streams [c1; c2] None))) 1
     = Some final
  /\ sources final = [source_of_web (page "u" "New")].
Proof.
  intros c1 c2 final.
  split; [reflexivity|]. split; [vm_compute; discriminate|].
  split; [vm_compute; reflexivity|].
  apply (C5_same_uri_last_write_wins with_key (js "q") c1 c2 None
           (w1 := page "u" "Old") (w2 := page "u" "New") (final := final)).
  - reflexivity.
  - reflexivity.
  - reflexivity.
  - vm_compute; discriminate.
  - vm_compute; reflexivity.
Defined.

(** C5, as stated, fails when the later citation's title is the empty
    string: the two citations share the [uri] and differ in title, yet the
    single entry's title is the [uri], not the later title. *)
Lemma C5_counterexample :
  let w1 := page "u" "A" in
  let w2 := page "u" "" in
  let c1 := cited_chunk (Some (js "x")) [w1] in
  let c2 := cited_chunk (Some (js "y")) [w2] in
  web_entries (chunks_of c1) = [w1]
  /\ web_entries (chunks_of c2) = [w2]
  /\ web_uri w1 = web_uri w2
  /\ web_title w1 <> web_title w2
  /\ exists final,
       nth_error
         (emitted_snapshots
            (performSearchStream with_key (js "q") (Streams [c1; c2] None))) 1
       = Some final
       /\ sources final = [ {| uri := js "u"; title := js "u" |} ]
       /\ map (fun s => Some (title s)) (sources final) <> [web_title w2].
Proof.
  intros w1 w2 c1 c2.
  split; [reflexivity|]. split; [reflexivity|]. split; [reflexivity|].
  split; [vm_compute; discriminate|].
  exists {| text := js "xy"; suggestion := None;
            sources := [ {| uri := js "u"; title := js "u" |} ] |}.
  split; [vm_compute; reflexivity|].
  split; [reflexivity|]. vm_compute; discriminate.
Qed.

(** A chunk without grounding chunks leaves the accumulator alone. *)
Lemma step_without_citations (st : State) (c : Chunk) :
  chunks_of c = [] -> cur_sources (step st c) = cur_sources st.
Proof. intros H; simpl; unfold next_sources; now rewrite H. Qed.

(** C10.  A chunk that carries no grounding citations leaves the
    accumulated sources as they were before it: the snapshot emitted for it
    lists the sources accumulated over the chunks before it, which are those
    of the previous snapshot when there is one. *)
Theorem C10_chunk_without_citations_keeps_sources
  (env : Env) (query : jsstring) (cs : list Chunk) (failure : option JsError)
  (k : nat) (c : Chunk) (cur : Snapshot) :
  nth_error cs k = Some c ->
  chunks_of c = [] ->
  nth_error
    (emitted_snapshots (performSearchStream env query (Streams cs failure))) k
  = Some cur ->
  sources cur = cur_sources (run_from initial (firstn k cs))
  /\ (forall k' prev,
        k = S k' ->
        nth_error
          (emitted_snapshots
             (performSearchStream env query (Streams cs failure))) k'
        = Some prev ->
        sources cur = sources prev).
Proof.
  intros Hc Hno. snapshots_of_stream k.
  intros H. apply snapshots_nth_inv in H. destruct H as [Hk ->].
  assert (Hsplit : firstn (S k) cs = firstn k cs ++ [c]).
  { clear Hk Hno. revert k Hc.
    induction cs as [|x cs IH]; intros [|k] Hc; simpl in *;
      try discriminate.
    - congruence.
    - now rewrite <- (IH k Hc). }
  assert (Hsrc : sources (snapshot_of (run_from initial (firstn (S k) cs)))
                 = cur_sources (run_from initial (firstn k cs))).
  { rewrite Hsplit, run_from_snoc. cbn [snapshot_of sources].
    now apply step_without_citations. }
  split; [exact Hsrc|].
  intros k' prev -> Hprev. rewrite Hsrc.
  apply snapshots_nth_inv in Hprev. destruct Hprev as [_ ->]. reflexivity.
Qed.

Lemma C10_chunk_without_citations_keeps_sources_witness :
  let cs := [cited_chunk (Some (js "x")) [page "a" "A1"];
             text_chunk (js "y")] in
  let cur := {| text := js "xy"; suggestion := None;
                sources := [ {| uri := js "a"; title := js "A1" |} ] |} in
  nth_error cs 1 = Some (text_chunk (js "y"))
  /\ chunks_of (text_chunk (js "y")) = []
  /\ nth_error
       (emitted_snapshots
          (performSearchStream with_key (js "q") (Streams cs None))) 1
     = Some cur
  /\ sources cur = cur_sources (run_from initial (firstn 1 cs)).
Proof.
  intros cs cur.
  split; [reflexivity|]. split; [reflexivity|].
  split; [vm_compute; reflexivity|].
  apply (C10_chunk_without_citations_keeps_sources with_key (js "q") cs None
           1 (c := text_chunk (js "y")) (cur := cur)).
  - reflexivity.
  - reflexivity.
  - vm_compute; reflexivity.
Defined.

(** A chunk whose grounding chunks hold no web citation triggers the
    rebuild of line 57, which changes nothing in a stream. *)
Lemma chunk_without_web_citation_keeps_sources (cs : list Chunk) (c : Chunk) :
  web_entries (chunks_of c) = [] ->
  cur_sources (run_from initial (cs ++ [c]))
  = cur_sources (run_from initial cs).
Proof.
  intros H. rewrite !sources_closed_form, all_citations_app.
  unfold all_citations at 2; simpl. unfold new_sources; rewrite H; simpl.
  now rewrite app_nil_r.
Qed.

(* ================================================================== *)
(** ** Worked examples *)
(* ================================================================== *)

(** A marker line in the middle of the buffer is emptied; its line feed
    stays. *)
Example marker_line_in_the_middle :
  JsRegExp.replace MARKER_LINE []
    (js "a" ++ LF ++ js "추천검색어: x" ++ LF ++ js "b")
  = js "a" ++ LF ++ LF ++ js "b".
Proof. reflexivity. Qed.

(** [^] wants the marker at the very start of a line, while line 40 trims
    the line first: an indented marker line gives a suggestion and stays in
    the text. *)
Example indented_marker_line :
  snapshots [text_chunk (js " 추천검색어: x" ++ LF ++ js "b")]
  = [ {| text := js "추천검색어: x" ++ LF ++ js "b";
         suggestion := Some (js "x");
         sources := [] |} ].
Proof. vm_compute; reflexivity. Qed.

(** With a single line in the buffer the suggestion is not taken yet. *)
Example suggestion_waits_for_second_line :
  map suggestion
    (snapshots [text_chunk (js "추천검색어: ca");
                text_chunk (js "t" ++ LF ++ js "cats")])
  = [None; Some (js "cat")].
Proof. vm_compute; reflexivity. Qed.

(** An empty suggestion is overwritten once content follows the marker. *)
Example empty_suggestion_is_completed :
  map suggestion
    (snapshots [text_chunk (js "intro" ++ LF ++ js "추천검색어:");
                text_chunk (js " cat")])
  = [Some []; Some (js "cat")].
Proof. vm_compute; reflexivity. Qed.

(** The rebuild keeps the place of the first occurrence and the value of
    the last one. *)
Example rebuild_keeps_place_takes_last :
  rebuild [ {| uri := js "a"; title := js "A1" |};
            {| uri := js "b"; title := js "B1" |};
            {| uri := js "a"; title := js "A2" |} ]
  = [ {| uri := js "a"; title := js "A2" |};
      {| uri := js "b"; title := js "B1" |} ].
Proof. reflexivity. Qed.

(** A failure of the service in mid-stream: the snapshots so far, no
    terminal marker, the error logged and thrown again. *)
Example upstream_failure_mid_stream :
  let r := performSearchStream with_key (js "q")
             (Streams [text_chunk (js "a")] (Some (Error (js "quota")))) in
  emitted r = [ItemSnapshot {| text := js "a"; suggestion := None;
                               sources := [] |}]
  /\ outcome r = Thrown (Error (js "quota")).
Proof. split; vm_compute; reflexivity. Qed.

(* ================================================================== *)
(** ** Strings: trimming, searching and splitting *)
(* ================================================================== *)

Lemma trimStart_app_solid (a b : jsstring) (c : N) :
  is_white_space c = false ->
  trimStart (a ++ c :: b) = trimStart a ++ c :: b.
Proof.
  intros Hc; induction a as [|x a IH]; simpl.
  - now rewrite Hc.
  - destruct (is_white_space x); [exact IH|reflexivity].
Qed.

Lemma trimStart_idempotent (s : jsstring) :
  trimStart (trimStart s) = trimStart s.
Proof.
  induction s as [|c s IH]; simpl; auto.
  destruct (is_white_space c) eqn:E; [exact IH|]. simpl; now rewrite E.
Qed.

Lemma trimEnd_idempotent (s : jsstring) : trimEnd (trimEnd s) = trimEnd s.
Proof.
  unfold trimEnd. now rewrite rev_involutive, trimStart_idempotent.
Qed.

(** A code unit that is no white space stops [trimEnd] from the left. *)
Lemma trimEnd_cons_solid (c : N) (s : jsstring) :
  is_white_space c = false -> trimEnd (c :: s) = c :: trimEnd s.
Proof.
  intros Hc; unfold trimEnd; simpl.
  rewrite trimStart_app_solid by exact Hc. rewrite rev_app_distr. reflexivity.
Qed.

Lemma trimEnd_app_solid (a : jsstring) (c : N) (b : jsstring) :
  is_white_space c = false ->
  trimEnd (a ++ c :: b) = a ++ c :: trimEnd b.
Proof.
  intros Hc; unfold trimEnd.
  replace (rev (a ++ c :: b)) with (rev b ++ c :: rev a)
    by (rewrite rev_app_distr; simpl; now rewrite <- app_assoc).
  rewrite (@trimStart_app_solid (rev b) (rev a) c Hc).
  rewrite rev_app_distr; simpl. rewrite rev_involutive.
  now rewrite <- app_assoc.
Qed.

(** The shape of a trimmed string: empty, or a solid code unit followed by
    a string trimmed at its end. *)
Lemma trim_shape (s : jsstring) :
  trim s = []
  \/ exists c t, is_white_space c = false
                 /\ trimStart s = c :: t /\ trim s = c :: trimEnd t.
Proof.
  unfold trim. assert (H : trimStart s = []
                           \/ exists c t, is_white_space c = false
                                          /\ trimStart s = c :: t).
  { induction s as [|x s IH]; simpl; [now left|].
    destruct (is_white_space x) eqn:E; [exact IH|].
    right; exists x, s; auto. }
  destruct H as [->|(c & t & Hc & ->)].
  - now left.
  - right; exists c, t. rewrite trimEnd_cons_solid by exact Hc. auto.
Qed.

(** [trim] is idempotent. *)
Lemma trim_idempotent (s : jsstring) : trim (trim s) = trim s.
Proof.
  destruct (trim_shape s) as [->|(c & t & Hc & _ & ->)]; [reflexivity|].
  unfold trim; simpl; rewrite Hc.
  rewrite trimEnd_cons_solid by exact Hc. now rewrite trimEnd_idempotent.
Qed.

Lemma In_trimStart (c : N) (s : jsstring) : In c (trimStart s) -> In c s.
Proof.
  induction s as [|x s IH]; simpl; auto.
  destruct (is_white_space x); simpl; auto.
Qed.

Lemma In_trim (c : N) (s : jsstring) : In c (trim s) -> In c s.
Proof.
  unfold trim, trimEnd; intros H.
  apply In_trimStart. apply in_rev in H. apply In_trimStart in H.
  now apply in_rev in H.
Qed.

Lemma In_skipn {A : Type} (x : A) (n : nat) (l : list A) :
  In x (skipn n l) -> In x l.
Proof.
  revert l; induction n as [|n IH]; intros [|y l]; simpl; auto.
Qed.

Lemma In_replace_erase (c : N) (p s : jsstring) :
  In c (JsString.replace p [] s) -> In c s.
Proof.
  induction s as [|x s IH]; simpl.
  - destruct (startsWith p []); simpl; [apply In_skipn|auto].
  - destruct (startsWith p (x :: s)).
    + simpl app. apply (In_skipn c (length p) (x :: s)).
    + simpl; intros [H|H]; auto.
Qed.

Lemma startsWith_app (p a b : jsstring) :
  startsWith p a = true -> startsWith p (a ++ b) = true.
Proof.
  revert a; induction p as [|x p IH]; intros a H; [reflexivity|].
  destruct a as [|y a]; [discriminate|]. simpl in *.
  apply andb_true_iff in H; destruct H as [-> H]. now apply IH.
Qed.

Lemma startsWith_self_app (p b : jsstring) : startsWith p (p ++ b) = true.
Proof.
  induction p as [|x p IH]; simpl; [reflexivity|].
  now rewrite N.eqb_refl, IH.
Qed.

(** What does not occur in the whole buffer did not occur in a prefix. *)
Lemma includes_prefix (p a b : jsstring) :
  includes p (a ++ b) = false -> includes p a = false.
Proof.
  induction a as [|x a IH]; intros H.
  - destruct p as [|y p]; [|reflexivity].
    destruct b; discriminate.
  - change (startsWith p (x :: a ++ b) || includes p (a ++ b) = false) in H.
    change (startsWith p (x :: a) || includes p a = false).
    apply orb_false_iff in H; destruct H as [H1 H2].
    apply orb_false_iff; split; [|now apply IH].
    destruct (startsWith p (x :: a)) eqn:E; [|reflexivity].
    pose proof (startsWith_app p (x :: a) b E) as E'.
    simpl app in E'. congruence.
Qed.

Lemma includes_LF (s : jsstring) :
  includes LF s = false <-> single_line s.
Proof.
  unfold single_line; induction s as [|x s IH].
  - simpl; split; auto.
  - change (includes LF (x :: s))
      with ((N.eqb 10 x && true) || includes LF s).
    rewrite andb_true_r, orb_false_iff, IH, N.eqb_neq. simpl. split.
    + intros [H1 H2] [H|H]; [now apply H1|auto].
    + intros H; split; [intros E; apply H; left; auto
                       |intros E; apply H; right; auto].
Qed.

(** The pieces of [s.split("\n")] hold no line feed. *)
Lemma split_from_LF_single_line (s : jsstring) :
  forall cur,
    single_line cur -> Forall single_line (split_from LF 0 cur s).
Proof.
  unfold single_line; induction s as [|x s IH]; intros cur Hcur.
  - constructor; [|constructor]. simpl. now rewrite <- in_rev.
  - cbn [split_from startsWith LF]. rewrite andb_true_r.
    destruct (N.eqb 10 x) eqn:E.
    + constructor; [now rewrite <- in_rev|]. apply IH; simpl; auto.
    + apply IH. apply N.eqb_neq in E. simpl; intros [H|H]; auto.
Qed.

Lemma split_LF_single_line (s : jsstring) :
  Forall single_line (split LF s).
Proof. apply (@split_from_LF_single_line s []); intros []. Qed.

(** A string without line feed is its own single piece. *)
Lemma split_from_LF_one (s : jsstring) :
  forall cur,
    single_line s -> split_from LF 0 cur s = [rev cur ++ s].
Proof.
  unfold single_line; induction s as [|x s IH]; intros cur Hs.
  - simpl. now rewrite app_nil_r.
  - cbn [split_from startsWith LF]. rewrite andb_true_r.
    destruct (N.eqb 10 x) eqn:E.
    + apply N.eqb_eq in E; exfalso; apply Hs; left; auto.
    + rewrite IH by (intros H; apply Hs; right; exact H).
      simpl; now rewrite <- app_assoc.
Qed.

(** The first piece ends at the first line feed. *)
Lemma split_from_LF_first (a b : jsstring) :
  forall cur,
    single_line a ->
    split_from LF 0 cur (a ++ LF ++ b) = (rev cur ++ a) :: split LF b.
Proof.
  unfold single_line; induction a as [|x a IH]; intros cur Ha.
  - simpl. now rewrite app_nil_r.
  - change ((x :: a) ++ LF ++ b) with (x :: (a ++ LF ++ b)).
    cbn [split_from]. cbn [startsWith LF]. rewrite andb_true_r.
    destruct (N.eqb 10 x) eqn:E.
    + apply N.eqb_eq in E; exfalso; apply Ha; left; auto.
    + rewrite IH by (intros H; apply Ha; right; exact H).
      simpl; now rewrite <- app_assoc.
Qed.

Lemma split_LF_first (a b : jsstring) :
  single_line a -> split LF (a ++ LF ++ b) = a :: split LF b.
Proof. intros Ha; apply (@split_from_LF_first a b [] Ha). Qed.

Lemma split_from_LF_length (s : jsstring) :
  forall skip cur, 1 <= length (split_from LF skip cur s).
Proof.
  induction s as [|x s IH]; intros skip cur; [simpl; lia|].
  cbn [split_from]. destruct skip as [|k]; [|apply IH].
  destruct (startsWith LF (x :: s)); [|apply IH].
  cbn [length]; lia.
Qed.

Lemma split_LF_length (s : jsstring) : 1 <= length (split LF s).
Proof. apply split_from_LF_length. Qed.

(* ================================================================== *)
(** ** More about the adapter *)
(* ================================================================== *)

Lemma not_done_in_snapshots (l : list Snapshot) :
  ~ In ItemDone (map ItemSnapshot l).
Proof. induction l as [|s l IH]; simpl; [tauto|]. intros [H|H]; [discriminate|auto]. Qed.

(** X1.  The generator yields snapshots and then, exactly when it returns,
    the terminal marker as its last item; and it returns exactly when the
    key is present and the stream of the service ends without failure.  On a
    failure no terminal marker is yielded. *)
Theorem done_marker_iff_normal_end
  (env : Env) (query : jsstring) (up : Upstream) :
  let r := performSearchStream env query up in
  (exists snaps,
      emitted r
      = map ItemSnapshot snaps
        ++ match outcome r with Returned => [ItemDone] | Thrown _ => [] end)
  /\ (In ItemDone (emitted r) <-> outcome r = Returned)
  /\ (outcome r = Returned
      <-> truthy_opt (GEMINI_API_KEY env) = true
          /\ exists cs, up = Streams cs None).
Proof.
  intros r; unfold r; rewrite emitted_cases.
  unfold performSearchStream.
  destruct (truthy_opt (GEMINI_API_KEY env)); simpl.
  - destruct up as [e|cs [e|]]; simpl.
    + split; [exists []; reflexivity|].
      split; split; try tauto; try discriminate.
      intros [_ [cs H]]; discriminate.
    + split; [exists (snapshots cs); now rewrite app_nil_r|].
      split; split; try discriminate.
      * intros H; exfalso; exact (not_done_in_snapshots _ H).
      * intros [_ [cs' H]]; discriminate.
    + split; [exists (snapshots cs); reflexivity|].
      split; split; auto.
      * intros _; apply in_or_app; right; left; reflexivity.
      * intros _; split; [reflexivity|exists cs; reflexivity].
  - split; [exists []; reflexivity|].
    split; split; try tauto; try discriminate.
    intros [H _]; discriminate.
Qed.

Lemma snapshots_from_app (cs cs' : list Chunk) :
  forall st,
    snapshots_from st (cs ++ cs')
    = snapshots_from st cs ++ snapshots_from (run_from st cs) cs'.
Proof.
  induction cs as [|c cs IH]; intros st; simpl; [reflexivity|].
  now rewrite IH.
Qed.

(** The suggestion stays trimmed and on one line. *)
Lemma next_suggestion_tidy (old : option jsstring) (ft : jsstring) :
  tidy_suggestion old -> tidy_suggestion (next_suggestion old ft).
Proof.
  intros Hold; unfold next_suggestion.
  destruct (negb (truthy_opt old) && includes MARKER ft); [|exact Hold].
  destruct (find _ (split LF ft)) as [line|] eqn:Hfind; [|exact Hold].
  destruct (truthy line && _); [|exact Hold].
  intros s Hs; inversion Hs; subst s; clear Hs. split.
  - apply trim_idempotent.
  - apply find_some in Hfind; destruct Hfind as [Hin _].
    pose proof (split_LF_single_line ft) as Hall.
    rewrite Forall_forall in Hall. specialize (Hall _ Hin).
    intros H; apply Hall. apply In_trim in H.
    now apply In_replace_erase in H.
Qed.

Lemma run_from_tidy (cs : list Chunk) :
  forall st,
    tidy_suggestion (cur_suggestion st) ->
    tidy_suggestion (cur_suggestion (run_from st cs)).
Proof.
  induction cs as [|c cs IH]; intros st H; [exact H|].
  apply (IH (step st c)). simpl. now apply next_suggestion_tidy.
Qed.

(** X3.  In every emitted snapshot the text is trimmed, and the suggestion,
    when there is one, is trimmed and holds no line feed. *)
Theorem snapshots_are_tidy
  (env : Env) (query : jsstring) (up : Upstream) :
  Forall (fun snap =>
            trim (text snap) = text snap
            /\ forall s, suggestion snap = Some s
                         -> trim s = s /\ ~ In 10%N s)
    (emitted_snapshots (performSearchStream env query up)).
Proof.
  destruct (emitted_snapshots_are_snapshots env query up) as [cs ->].
  apply Forall_forall; intros snap Hin.
  apply In_nth_error in Hin; destruct Hin as [k Hk].
  apply snapshots_nth_inv in Hk; destruct Hk as [_ ->]. split.
  - simpl. apply trim_idempotent.
  - apply (@run_from_tidy (firstn (S k) cs) initial). intros s; discriminate.
Qed.

Lemma rebuild_In (l : list SourceRef) (s : SourceRef) :
  In s (rebuild l) -> In s l.
Proof.
  intros H; apply rebuild_last in H. unfold last_occurrence in H.
  apply find_some in H. destruct H as [H _]. now apply in_rev in H.
Qed.

Lemma source_of_web_titled (w : GroundingChunkWeb) :
  title (source_of_web w) = [] -> uri (source_of_web w) = [].
Proof.
  unfold source_of_web; simpl.
  destruct (web_title w) as [[|c t]|]; simpl; auto; discriminate.
Qed.

(** X4.  Every source of an emitted snapshot was built from a web citation
    of one of the chunks received so far, under that citation's [uri]; and
    its title is empty only if its [uri] is. *)
Theorem sources_come_from_citations
  (env : Env) (query : jsstring) (cs : list Chunk) (failure : option JsError)
  (k : nat) (snap : Snapshot) (s : SourceRef) :
  nth_error
    (emitted_snapshots (performSearchStream env query (Streams cs failure))) k
  = Some snap ->
  In s (sources snap) ->
  (exists c w,
      In c (firstn (S k) cs) /\ In w (web_entries (chunks_of c))
      /\ s = source_of_web w /\ uri s = web_uri w)
  /\ (title s = [] -> uri s = []).
Proof.
  snapshots_of_stream k.
  intros H Hin. rewrite (sources_snapshot _ _ H) in Hin.
  apply rebuild_In in Hin. unfold all_citations in Hin.
  apply in_flat_map in Hin. destruct Hin as [c [Hc Hs]].
  unfold new_sources in Hs. apply in_map_iff in Hs.
  destruct Hs as [w [<- Hw]]. split.
  - exists c, w; auto.
  - apply source_of_web_titled.
Qed.

Lemma sources_come_from_citations_witness :
  let cs := [cited_chunk (Some (js "x")) [page "a" "A1"];
             cited_chunk None [untitled_page "b"]] in
  let snap := {| text := js "x"; suggestion := None;
                 sources := [ {| uri := js "a"; title := js "A1" |};
                              {| uri := js "b"; title := js "b" |} ] |} in
  let s := {| uri := js "b"; title := js "b" |} in
  nth_error
    (emitted_snapshots (performSearchStream with_key (js "q") (Streams cs None)))
    1 = Some snap
  /\ In s (sources snap)
  /\ (title s = [] -> uri s = []).
Proof.
  intros cs snap s.
  split; [vm_compute; reflexivity|].
  split; [right; left; reflexivity|].
  apply (@sources_come_from_citations with_key (js "q") cs None 1 snap s).
  - vm_compute; reflexivity.
  - right; left; reflexivity.
Defined.

(** *** A buffer without the marker *)

Lemma remove_first_marker_line_unfold (bol : bool) (s : jsstring) :
  remove_first_marker_line bol s
  = if bol && startsWith MARKER s then line_end s
    else match s with
         | [] => []
         | c :: s' => c :: remove_first_marker_line (is_line_terminator c) s'
         end.
Proof. destruct s; reflexivity. Qed.

Lemma includes_unfold (p s : jsstring) :
  includes p s
  = startsWith p s || match s with [] => false | _ :: s' => includes p s' end.
Proof. destruct s; reflexivity. Qed.

Lemma remove_first_marker_line_absent (s : jsstring) :
  forall bol,
    includes MARKER s = false -> remove_first_marker_line bol s = s.
Proof.
  induction s as [|x s IH]; intros bol H;
    rewrite remove_first_marker_line_unfold;
    rewrite includes_unfold in H; apply orb_false_iff in H;
    destruct H as [-> H]; rewrite andb_false_r; [reflexivity|].
  now rewrite IH.
Qed.

Lemma buffer_app (cs cs' : list Chunk) :
  buffer (cs ++ cs') = buffer cs ++ buffer cs'.
Proof. apply flat_map_app. Qed.

Lemma buffer_firstn (cs : list Chunk) (n : nat) :
  buffer cs = buffer (firstn n cs) ++ buffer (skipn n cs).
Proof. now rewrite <- buffer_app, firstn_skipn. Qed.

Lemma no_marker_no_suggestion (cs : list Chunk) :
  forall st,
    cur_suggestion st = None ->
    includes MARKER (fullText st ++ buffer cs) = false ->
    cur_suggestion (run_from st cs) = None.
Proof.
  induction cs as [|c cs IH]; intros st Hs Hinc; [exact Hs|].
  apply (IH (step st c)).
  - simpl; rewrite Hs. unfold next_suggestion.
    simpl buffer in Hinc. rewrite app_assoc in Hinc.
    apply includes_prefix in Hinc. now rewrite Hinc, andb_false_r.
  - simpl fullText. simpl buffer in Hinc. now rewrite <- app_assoc.
Qed.

(** X5.  As long as the marker does not occur in the text received, no
    suggestion is made and the text of each snapshot is the text received so
    far, trimmed. *)
Theorem without_marker_plain_text
  (env : Env) (query : jsstring) (cs : list Chunk) (failure : option JsError)
  (k : nat) (snap : Snapshot) :
  includes MARKER (buffer (firstn (S k) cs)) = false ->
  nth_error
    (emitted_snapshots (performSearchStream env query (Streams cs failure))) k
  = Some snap ->
  suggestion snap = None
  /\ text snap = trim (buffer (firstn (S k) cs)).
Proof.
  intros Hinc. snapshots_of_stream k.
  intros H; apply snapshots_nth_inv in H; destruct H as [_ ->]. split.
  - simpl. apply no_marker_no_suggestion; [reflexivity|exact Hinc].
  - simpl. rewrite replace_marker_line, fullText_run_from; simpl.
    now rewrite remove_first_marker_line_absent.
Qed.

Lemma without_marker_plain_text_witness :
  let cs := [text_chunk (js " Cats are"); text_chunk (js " mammals. ")] in
  let snap := {| text := js "Cats are mammals."; suggestion := None;
                 sources := [] |} in
  includes MARKER (buffer (firstn 2 cs)) = false
  /\ nth_error
       (emitted_snapshots
          (performSearchStream with_key (js "q") (Streams cs None))) 1
     = Some snap
  /\ text snap = trim (buffer (firstn 2 cs)).
Proof.
  intros cs snap.
  split; [vm_compute; reflexivity|].
  split; [vm_compute; reflexivity|].
  apply (@without_marker_plain_text with_key (js "q") cs None 1 snap).
  - vm_compute; reflexivity.
  - vm_compute; reflexivity.
Defined.

(** X7.  The final text and sources depend on the text and the citations
    received, not on how the service cut them into chunks. *)
Theorem text_and_sources_ignore_chunking (cs cs' : list Chunk) :
  buffer cs = buffer cs' ->
  all_citations cs = all_citations cs' ->
  text (snapshot_of (run_from initial cs))
  = text (snapshot_of (run_from initial cs'))
  /\ sources (snapshot_of (run_from initial cs))
     = sources (snapshot_of (run_from initial cs')).
Proof.
  intros Hb Hc; simpl.
  rewrite !fullText_run_from, !sources_closed_form, Hb, Hc. auto.
Qed.

Lemma text_and_sources_ignore_chunking_witness :
  let cs := [cited_chunk (Some (js "ab")) [page "a" "A1"; page "b" "B1"]] in
  let cs' := [cited_chunk (Some (js "a")) [page "a" "A1"];
              cited_chunk (Some (js "b")) [page "b" "B1"]] in
  buffer cs = buffer cs'
  /\ all_citations cs = all_citations cs'
  /\ sources (snapshot_of (run_from initial cs))
     = sources (snapshot_of (run_from initial cs')).
Proof.
  intros cs cs'.
  split; [reflexivity|]. split; [reflexivity|].
  apply (@text_and_sources_ignore_chunking cs cs'); reflexivity.
Defined.

(** The suggestion, unlike the text, depends on where the chunks end: a
    marker line cut before its end is taken as it stands. *)
Example suggestion_depends_on_chunking :
  map suggestion
    (snapshots [text_chunk (js "intro" ++ LF ++ js "추천검색어: ca");
                text_chunk (js "t")])
  = [Some (js "ca"); Some (js "ca")]
  /\ map suggestion
       (snapshots [text_chunk (js "intro" ++ LF ++ js "추천검색어: cat")])
     = [Some (js "cat")].
Proof. split; vm_compute; reflexivity. Qed.

(** *** The marker on the first line *)

Lemma no_line_terminator_single_line (s : jsstring) :
  no_line_terminator s -> single_line s.
Proof.
  unfold no_line_terminator, single_line; intros H Hin.
  rewrite forallb_forall in H. specialize (H _ Hin). discriminate.
Qed.

Lemma single_line_app (a b : jsstring) :
  single_line a -> single_line b -> single_line (a ++ b).
Proof. unfold single_line; intros Ha Hb H; apply in_app_or in H; tauto. Qed.

Lemma marker_single_line : single_line MARKER.
Proof.
  apply no_line_terminator_single_line, marker_has_no_line_terminator.
Qed.

Lemma line_end_app (a b : jsstring) :
  no_line_terminator a -> line_end (a ++ LF ++ b) = LF ++ b.
Proof.
  unfold no_line_terminator; induction a as [|x a IH]; intros H.
  - reflexivity.
  - simpl in H. apply andb_true_iff in H; destruct H as [Hx Ha].
    simpl. destruct (is_line_terminator x); [discriminate|]. now apply IH.
Qed.

(** A prefix of [a ++ "\n" ++ more] that holds a line feed reaches past the
    first line. *)
Lemma prefix_past_first_line (a : jsstring) :
  forall ft rest more,
    single_line a ->
    ft ++ rest = a ++ LF ++ more ->
    In 10%N ft ->
    exists m, ft = a ++ LF ++ m.
Proof.
  unfold single_line; induction a as [|x a IH]; intros ft rest more Ha E Hin.
  - destruct ft as [|y ft]; [destruct Hin|].
    simpl in E; inversion E; subst. exists ft; reflexivity.
  - destruct ft as [|y ft]; [destruct Hin|].
    simpl in E; inversion E; subst y.
    destruct Hin as [Hy|Hin]; [exfalso; apply Ha; left; auto|].
    destruct (IH ft rest more) as [m Hm]; auto.
    + intros H; apply Ha; right; exact H.
    + exists m; simpl; now rewrite Hm.
Qed.

Lemma replace_unfold (p r s : jsstring) :
  JsString.replace p r s
  = if startsWith p s then r ++ skipn (length p) s
    else match s with
         | [] => []
         | c :: s' => c :: JsString.replace p r s'
         end.
Proof. destruct s; reflexivity. Qed.

Lemma replace_prefix (p r b : jsstring) :
  JsString.replace p r (p ++ b) = r ++ b.
Proof.
  rewrite replace_unfold, startsWith_self_app.
  rewrite skipn_app, skipn_all, Nat.sub_diag; reflexivity.
Qed.

Lemma trim_marker_line (r : jsstring) :
  trim (MARKER ++ r) = MARKER ++ trimEnd r.
Proof.
  unfold trim. change (trimStart (MARKER ++ r)) with (MARKER ++ r).
  change (MARKER ++ r)
    with ([52628; 52380; 44160; 49353; 50612]%N ++ 58%N :: r).
  now rewrite trimEnd_app_solid.
Qed.

(** One line in the buffer: the suggestion waits. *)
Lemma next_suggestion_single_line (ft : jsstring) :
  single_line ft -> next_suggestion None ft = None.
Proof.
  intros Hft; unfold next_suggestion.
  destruct (negb (truthy_opt None) && includes MARKER ft); [|reflexivity].
  unfold split; cbn [LF].
  change (split_from [10%N] 0 [] ft) with (split_from LF 0 [] ft).
  rewrite (@split_from_LF_one ft [] Hft); simpl rev; simpl app.
  cbn [find]. destruct (startsWith MARKER (trim ft)); [|reflexivity].
  apply includes_LF in Hft. change [10%N] with LF. rewrite Hft. simpl.
  now rewrite andb_false_r.
Qed.

(** The first line is the marker line and a line feed has arrived: the
    suggestion is what follows the marker, trimmed. *)
Lemma next_suggestion_marker_first (old : option jsstring) (r m : jsstring) :
  single_line r ->
  old = None \/ old = Some (trim r) ->
  next_suggestion old (MARKER ++ r ++ LF ++ m) = Some (trim r).
Proof.
  intros Hr Hold; unfold next_suggestion.
  destruct (truthy_opt old) eqn:Ht.
  - destruct Hold as [->| ->]; [discriminate|reflexivity].
  - cbn [negb andb].
    assert (Hinc : includes MARKER (MARKER ++ r ++ LF ++ m) = true).
    { rewrite includes_unfold, startsWith_self_app; reflexivity. }
    rewrite Hinc.
    replace (MARKER ++ r ++ LF ++ m) with ((MARKER ++ r) ++ LF ++ m)
      by now rewrite <- app_assoc.
    rewrite split_LF_first
      by (apply single_line_app; [apply marker_single_line|exact Hr]).
    cbn [find]. rewrite trim_marker_line, startsWith_self_app.
    match goal with
    | |- context [1 <? ?n] => assert (Hlen : (1 <? n) = true)
    end.
    { apply Nat.ltb_lt. pose proof (split_LF_length m) as Hm.
      cbn [length]. unfold jsstring in *. lia. }
    rewrite Hlen, orb_true_r, andb_true_r.
    change (truthy (MARKER ++ r)) with true. cbn iota.
    rewrite replace_prefix. reflexivity.
Qed.

(** While the response is being received, either no line feed has come and
    there is no suggestion, or the first line is complete and the suggestion
    is its content. *)
Lemma marker_first_along (r more : jsstring) (cs : list Chunk) :
  single_line r ->
  forall st,
    fullText st ++ buffer cs = MARKER ++ r ++ LF ++ more ->
    (cur_suggestion st = None /\ single_line (fullText st))
    \/ cur_suggestion st = Some (trim r) ->
    (cur_suggestion (run_from st cs) = None
     /\ single_line (fullText (run_from st cs)))
    \/ cur_suggestion (run_from st cs) = Some (trim r).
Proof.
  intros Hr; induction cs as [|c cs IH]; intros st Hfull Hst; [exact Hst|].
  apply (IH (step st c)).
  - simpl fullText. simpl buffer in Hfull. now rewrite <- app_assoc.
  - simpl buffer in Hfull. rewrite app_assoc in Hfull.
    set (ft := fullText st ++ or_empty (chunk_text c)) in *.
    change (fullText (step st c)) with ft.
    change (cur_suggestion (step st c))
      with (next_suggestion (cur_suggestion st) ft).
    destruct (in_dec N.eq_dec 10%N ft) as [Hin|Hnin].
    + right.
      assert (Hline : single_line (MARKER ++ r))
        by (apply single_line_app; [apply marker_single_line|exact Hr]).
      rewrite (app_assoc MARKER r) in Hfull.
      destruct (prefix_past_first_line _ _ _ Hline Hfull Hin) as [m Hm].
      rewrite Hm, <- app_assoc.
      apply next_suggestion_marker_first; [exact Hr|].
      destruct Hst as [[Hs _]|Hs]; auto.
    + destruct Hst as [[Hs Hl]|Hs].
      * left; split; [|exact Hnin].
        rewrite Hs. now apply next_suggestion_single_line.
      * right. rewrite Hs.
        destruct (trim r) as [|x t] eqn:E; [|reflexivity].
        unfold next_suggestion; cbn [truthy_opt truthy negb andb].
        (* an empty suggestion and one line only: nothing changes *)
        destruct (includes MARKER ft); [|reflexivity].
        unfold split; cbn [LF].
        change (split_from [10%N] 0 [] ft) with (split_from LF 0 [] ft).
        rewrite (@split_from_LF_one ft [] Hnin); simpl rev; simpl app.
        cbn [find]. destruct (startsWith MARKER (trim ft)); [|reflexivity].
        apply includes_LF in Hnin. change [10%N] with LF. rewrite Hnin.
        simpl. now rewrite andb_false_r.
Qed.

(** X6.  The response the prompt asks for: the first line is the marker
    followed by the corrected query [r], then a line feed, then the summary.
    However the service cuts this response into chunks, the final snapshot
    carries [r], trimmed, as its suggestion and the summary, trimmed, as its
    text. *)
Theorem marker_on_first_line
  (env : Env) (query : jsstring) (cs : list Chunk) (failure : option JsError)
  (r more : jsstring) (final : Snapshot) :
  no_line_terminator r ->
  buffer cs = MARKER ++ r ++ LF ++ more ->
  nth_error
    (emitted_snapshots (performSearchStream env query (Streams cs failure)))
    (length cs - 1)
  = Some final ->
  suggestion final = Some (trim r) /\ text final = trim more.
Proof.
  intros Hr Hbuf. rewrite emitted_snapshots_cases.
  destruct (truthy_opt (GEMINI_API_KEY env));
    [|intros H; rewrite nth_error_nil in H; discriminate].
  intros H; apply snapshots_nth_inv in H; destruct H as [Hk ->].
  replace (S (length cs - 1)) with (length cs) by lia. rewrite firstn_all.
  split.
  - simpl.
    destruct (@marker_first_along r more cs
                (no_line_terminator_single_line Hr) initial Hbuf)
      as [[_ Hl]|Hs]; [left; split; [reflexivity|intros []]| |exact Hs].
    exfalso; apply Hl. rewrite fullText_run_from, Hbuf; simpl fullText.
    rewrite app_nil_l, !in_app_iff. right; right; left. simpl; auto.
  - simpl. rewrite replace_marker_line, fullText_run_from, Hbuf.
    simpl fullText; rewrite app_nil_l.
    rewrite remove_first_marker_line_unfold, startsWith_self_app.
    cbn [andb]. rewrite (app_assoc MARKER r), line_end_app; [reflexivity|].
    unfold no_line_terminator in *.
    now rewrite forallb_app, marker_has_no_line_terminator, Hr.
Qed.

Lemma marker_on_first_line_witness :
  let cs := [text_chunk (js "추천검색");
             text_chunk (js "어: 고양");
             text_chunk (js "이 " ++ LF ++ js "고양이는 ");
             text_chunk (js "포유류입니다.")] in
  let final := {| text := js "고양이는 포유류입니다.";
                  suggestion := Some (js "고양이"); sources := [] |} in
  no_line_terminator (js " 고양이 ")
  /\ buffer cs = MARKER ++ js " 고양이 " ++ LF ++ js "고양이는 포유류입니다."
  /\ nth_error
       (emitted_snapshots
          (performSearchStream with_key (js "q") (Streams cs None)))
       (length cs - 1)
     = Some final
  /\ suggestion final = Some (trim (js " 고양이 ")).
Proof.
  intros cs final.
  split; [reflexivity|]. split; [reflexivity|].
  split; [vm_compute; reflexivity|].
  apply (@marker_on_first_line with_key (js "q") cs None (js " 고양이 ")
           (js "고양이는 포유류입니다.") final).
  - reflexivity.
  - reflexivity.
  - vm_compute; reflexivity.
Defined.

(* ================================================================== *)
(** ** The consumer *)
(* ================================================================== *)

Lemma consume_snapshots (l : list Snapshot) :
  forall prev tl,
    App.consume prev (map ItemSnapshot l ++ tl)
    = App.consume (merged prev l) tl.
Proof.
  induction l as [|c l IH]; intros prev tl; simpl; [reflexivity|].
  apply IH.
Qed.

(** The loop applies the updater once for each emitted snapshot. *)
Lemma consume_emitted (env : Env) (query : jsstring) (up : Upstream)
  (prev : option App.SearchResult) :
  App.consume prev (emitted (performSearchStream env query up))
  = merged prev (emitted_snapshots (performSearchStream env query up)).
Proof.
  rewrite emitted_cases, emitted_snapshots_cases.
  destruct (truthy_opt (GEMINI_API_KEY env)); [|reflexivity].
  destruct up as [e|cs [e|]]; try reflexivity.
  - rewrite <- (app_nil_r (map ItemSnapshot (snapshots cs))).
    now rewrite consume_snapshots.
  - now rewrite consume_snapshots.
Qed.

Lemma handleSearch_starts (env : Env) (up : Upstream) (st : App.AppState)
  (overrideQuery : option jsstring) :
  search_starts st overrideQuery ->
  let r := performSearchStream env (App.searchTerm_of st overrideQuery) up in
  App.handleSearch env up st overrideQuery
  = ({| App.query := App.query st;
        App.isSearching := false;
        App.result := merged started (emitted_snapshots r);
        App.error := match outcome r with
                     | Returned => None
                     | Thrown e => Some (App.error_message e)
                     end;
        App.hasSearched := true |},
     Some r).
Proof.
  intros [Ht Hs] r. unfold App.handleSearch. rewrite Ht, Hs. cbn [negb orb].
  fold r. unfold r at 1. rewrite consume_emitted. reflexivity.
Qed.

Lemma merged_snoc (prev : option App.SearchResult) (l : list Snapshot)
  (c : Snapshot) :
  merged prev (l ++ [c]) = Some (App.merge (merged prev l) c).
Proof. unfold merged; now rewrite fold_left_app. Qed.

Lemma merged_started_some (l : list Snapshot) :
  exists r, merged started l = Some r.
Proof.
  destruct l as [|c l] using rev_ind.
  - eexists; reflexivity.
  - rewrite merged_snoc; eexists; reflexivity.
Qed.

(** X8.  The submit button is disabled exactly when submitting would do
    nothing: with a blank query or a search under way, [handleSearch] leaves
    the state as it is and starts no generator; otherwise it starts one for
    the query. *)
Theorem submit_disabled_iff_no_search
  (env : Env) (up : Upstream) (st : App.AppState) :
  (App.submit_disabled st = true
   -> App.handleSearch env up st None = (st, None))
  /\ (App.submit_disabled st = false
      -> snd (App.handleSearch env up st None)
         = Some (performSearchStream env (App.query st) up)).
Proof.
  unfold App.submit_disabled, App.handleSearch, App.searchTerm_of.
  cbn [truthy_opt]. rewrite (orb_comm (App.isSearching st)).
  split; intros ->; reflexivity.
Qed.

Lemma submit_disabled_iff_no_search_witness :
  App.submit_disabled (idle "  ") = true
  /\ App.handleSearch with_key (Streams [text_chunk (js "meow")] None)
       (idle "  ") None
     = (idle "  ", None).
Proof.
  assert (H : App.submit_disabled (idle "  ") = true) by reflexivity.
  split; [exact H|].
  exact (proj1 (@submit_disabled_iff_no_search with_key
                  (Streams [text_chunk (js "meow")] None) (idle "  ")) H).
Defined.




Lemma snapshots_snoc (cs : list Chunk) (c : Chunk) :
  snapshots (cs ++ [c])
  = snapshots cs ++ [snapshot_of (run_from initial (cs ++ [c]))].
Proof.
  unfold snapshots; rewrite snapshots_from_app; simpl.
  now rewrite run_from_snoc.
Qed.

(** The [sources] of the result follow the accumulator of the adapter. *)
Lemma merged_sources (cs : list Chunk) :
  forall st prev r,
    (forall p, prev = Some p -> App.sources p = cur_sources st) ->
    merged prev (snapshots_from st cs) = Some r ->
    App.sources r = cur_sources (run_from st cs).
Proof.
  induction cs as [|c cs IH]; intros st prev r Hprev Hr.
  - apply Hprev, Hr.
  - apply (IH (step st c) (Some (App.merge prev (snapshot_of (step st c))))).
    + intros p Hp; inversion Hp; reflexivity.
    + exact Hr.
Qed.

Lemma result_sources (cs : list Chunk) (r : App.SearchResult) :
  merged started (snapshots cs) = Some r ->
  App.sources r = rebuild (all_citations cs).
Proof.
  intros H. rewrite <- sources_closed_form.
  apply (@merged_sources cs initial started r); [|exact H].
  intros p Hp; inversion Hp; reflexivity.
Qed.

(** X10.  When the stream has delivered its chunks, however it ends, the
    [result] state holds the sources of the last snapshot, its text when
    that is not empty, and its suggestion when that is not empty. *)
Theorem result_holds_last_snapshot
  (env : Env) (st : App.AppState) (overrideQuery : option jsstring)
  (cs : list Chunk) (c : Chunk) (failure : option JsError) :
  search_starts st overrideQuery ->
  truthy_opt (GEMINI_API_KEY env) = true ->
  let final := snapshot_of (run_from initial (cs ++ [c])) in
  exists r,
    App.result
      (after_search env (Streams (cs ++ [c]) failure) st overrideQuery)
    = Some r
    /\ App.sources r = sources final
    /\ (text final <> [] -> App.text r = text final)
    /\ (forall s, suggestion final = Some s -> s <> [] ->
                  App.suggestion r = Some s).
Proof.
  intros Hstart Hkey final. unfold after_search.
  rewrite (handleSearch_starts env _ Hstart). cbn [fst App.result].
  rewrite emitted_snapshots_cases, Hkey, snapshots_snoc, merged_snoc.
  fold final. eexists; split; [reflexivity|].
  unfold App.merge; cbn [App.sources App.text App.suggestion].
  repeat split.
  - intros Hne. destruct (text final); [contradiction|reflexivity].
  - intros s Hs Hne. rewrite Hs. destruct s; [contradiction|reflexivity].
Qed.

Lemma result_holds_last_snapshot_witness :
  let env := with_key in
  let st := idle "cats" in
  let cs := [text_chunk (js "Cats ")] in
  let c := cited_chunk (Some (js "purr.")) [page "a" "A1"] in
  search_starts st None
  /\ truthy_opt (GEMINI_API_KEY env) = true
  /\ exists r,
       App.result (after_search env (Streams (cs ++ [c]) None) st None)
       = Some r
       /\ App.sources r
          = sources (snapshot_of (run_from initial (cs ++ [c])))
       /\ (text (snapshot_of (run_from initial (cs ++ [c]))) <> [] ->
           App.text r = text (snapshot_of (run_from initial (cs ++ [c]))))
       /\ (forall s,
              suggestion (snapshot_of (run_from initial (cs ++ [c]))) = Some s
              -> s <> [] -> App.suggestion r = Some s).
Proof.
  intros env st cs c.
  assert (Hstart : search_starts st None) by (split; reflexivity).
  assert (Hkey : truthy_opt (GEMINI_API_KEY env) = true) by reflexivity.
  split; [exact Hstart|]. split; [exact Hkey|].
  exact (@result_holds_last_snapshot env st None cs c None Hstart Hkey).
Defined.





(** A citation whose [uri] is no absolute URL: the search succeeds, the
    state holds the source, and drawing its card throws. *)
Example relative_uri_breaks_the_render :
  App.results_area (startsWith (js "https://"))
    (after_search with_key
       (Streams [cited_chunk (Some (js "Cats purr.")) [page "a" "A1"]] None)
       (idle "cats") None)
  = Some App.RenderThrows.
Proof. vm_compute; reflexivity. Qed.

(** X12.  After any search that started, the [result] state is set and its
    sources have pairwise distinct [uri]s, the keys of the list of all web
    results (line 313). *)
Theorem result_sources_have_distinct_uris
  (env : Env) (up : Upstream) (st : App.AppState)
  (overrideQuery : option jsstring) :
  search_starts st overrideQuery ->
  exists r,
    App.result (after_search env up st overrideQuery) = Some r
    /\ NoDup (map uri (App.sources r)).
Proof.
  intros Hstart. unfold after_search.
  rewrite (handleSearch_starts env up Hstart). cbn [fst App.result].
  destruct (emitted_snapshots_are_snapshots env
              (App.searchTerm_of st overrideQuery) up) as [cs ->].
  destruct (merged_started_some (snapshots cs)) as [r Hr].
  exists r; split; [exact Hr|].
  rewrite (result_sources cs Hr). apply rebuild_NoDup.
Qed.

Lemma result_sources_have_distinct_uris_witness :
  let up := Streams [cited_chunk (Some (js "x")) [page "a" "A1"];
                     cited_chunk None [page "a" "A2"; page "b" "B1"]]
              (Some (Error (js "quota"))) in
  search_starts (idle "cats") None
  /\ exists r,
       App.result (after_search with_key up (idle "cats") None) = Some r
       /\ NoDup (map uri (App.sources r)).
Proof.
  intros up.
  assert (Hstart : search_starts (idle "cats") None) by (split; reflexivity).
  split; [exact Hstart|].
  exact (@result_sources_have_distinct_uris with_key up (idle "cats") None
           Hstart).
Defined.

Lemma snapshots_tidy (cs : list Chunk) :
  Forall (fun snap => tidy_suggestion (suggestion snap)) (snapshots cs).
Proof.
  apply Forall_forall; intros snap Hin.
  apply In_nth_error in Hin; destruct Hin as [k Hk].
  apply snapshots_nth_inv in Hk; destruct Hk as [_ ->].
  apply (@run_from_tidy (firstn (S k) cs) initial). intros s; discriminate.
Qed.

(** The updater never stores an empty suggestion, and what it stores is
    trimmed. *)
Lemma merged_suggestion (l : list Snapshot) :
  Forall (fun snap => tidy_suggestion (suggestion snap)) l ->
  forall prev,
    (forall s, App.prev_suggestion prev = Some s -> s <> [] /\ trim s = s) ->
    forall s, App.prev_suggestion (merged prev l) = Some s ->
              s <> [] /\ trim s = s.
Proof.
  induction 1 as [|c l Hc Hl IH]; intros prev Hprev; [exact Hprev|].
  apply (IH (Some (App.merge prev c))).
  intros s; cbn [App.prev_suggestion App.merge App.suggestion].
  destruct (truthy_opt (suggestion c)) eqn:Ht; [|apply Hprev].
  intros Hs. destruct (Hc s Hs) as [Htrim _]. split; [|exact Htrim].
  rewrite Hs in Ht. destruct s; [discriminate|discriminate].
Qed.

(** X13.  A suggestion offered in the banner after a search is a non-empty
    trimmed string, and clicking it always starts a search for exactly that
    string and puts it in the query field. *)
Theorem offered_suggestion_starts_search
  (env : Env) (up : Upstream) (st : App.AppState)
  (overrideQuery : option jsstring) (s : jsstring)
  (env' : Env) (up' : Upstream) :
  search_starts st overrideQuery ->
  App.suggestion_banner (after_search env up st overrideQuery) = Some s ->
  let st' := after_search env up st overrideQuery in
  s <> [] /\ trim s = s
  /\ snd (App.acceptSuggestion env' up' st' s)
     = Some (performSearchStream env' s up')
  /\ App.query (fst (App.acceptSuggestion env' up' st' s)) = s.
Proof.
  intros Hstart Hbanner st'.
  assert (Hidle : App.isSearching st' = false).
  { unfold st', after_search.
    now rewrite (handleSearch_starts env up Hstart). }
  assert (Hs : s <> [] /\ trim s = s).
  { unfold App.suggestion_banner in Hbanner. fold st' in Hbanner.
    destruct (App.hasSearched st' && negb (App.isSearching st')
              && truthy_opt (App.prev_suggestion (App.result st')));
      [|discriminate].
    revert Hbanner. unfold st', after_search.
    rewrite (handleSearch_starts env up Hstart). cbn [fst App.result].
    destruct (emitted_snapshots_are_snapshots env
                (App.searchTerm_of st overrideQuery) up) as [cs ->].
    apply (merged_suggestion (snapshots_tidy cs)).
    intros x; discriminate. }
  destruct Hs as [Hne Htrim]. repeat split; auto.
  unfold App.acceptSuggestion; cbn [snd].
  unfold App.handleSearch, App.searchTerm_of.
  assert (Ht : truthy s = true) by (destruct s; [contradiction|reflexivity]).
  cbn [truthy_opt or_empty]. rewrite Ht, Htrim, Ht, Hidle. reflexivity.
Qed.

Lemma offered_suggestion_starts_search_witness :
  let up := Streams [text_chunk (js "추천검색어: cats" ++ LF ++ js "Cats purr.")]
              None in
  let st := idle "cots" in
  search_starts st None
  /\ App.suggestion_banner (after_search with_key up st None)
     = Some (js "cats")
  /\ js "cats" <> [] /\ trim (js "cats") = js "cats"
  /\ snd (App.acceptSuggestion with_key up (after_search with_key up st None)
            (js "cats"))
     = Some (performSearchStream with_key (js "cats") up)
  /\ App.query
       (fst (App.acceptSuggestion with_key up
               (after_search with_key up st None) (js "cats")))
     = js "cats".
Proof.
  intros up st.
  assert (Hstart : search_starts st None) by (split; reflexivity).
  assert (Hbanner : App.suggestion_banner (after_search with_key up st None)
                    = Some (js "cats")) by (vm_compute; reflexivity).
  split; [exact Hstart|]. split; [exact Hbanner|].
  exact (@offered_suggestion_starts_search with_key up st None (js "cats")
           with_key up Hstart Hbanner).
Defined.

Lemma rebuild_uris_app (l l' : list SourceRef) :
  map uri (rebuild (l ++ l'))
  = map uri (rebuild l)
    ++ filter (fun x => negb (mem x (map uri (rebuild l))))
         (first_appearances (map uri l')).
Proof.
  rewrite !rebuild_uris_keys. unfold entries; rewrite map_app.
  fold (entries l) (entries l').
  unfold JsMap.from_entries at 1. rewrite fold_left_app.
  fold (JsMap.from_entries JsString.eqb (entries l)).
  rewrite keys_from_list_order. now rewrite map_fst_entries.
Qed.

(** X14.  Sources never move: the [uri]s listed by a snapshot are an
    initial segment of the [uri]s listed by every later snapshot of the
    stream, so new sources are only added at the end and the count never
    decreases. *)
Theorem sources_are_appended
  (env : Env) (query : jsstring) (up : Upstream)
  (i j : nat) (si sj : Snapshot) :
  i <= j ->
  nth_error (emitted_snapshots (performSearchStream env query up)) i
  = Some si ->
  nth_error (emitted_snapshots (performSearchStream env query up)) j
  = Some sj ->
  (exists added, map uri (sources sj) = map uri (sources si) ++ added)
  /\ length (sources si) <= length (sources sj).
Proof.
  destruct (emitted_snapshots_are_snapshots env query up) as [cs ->].
  intros Hij Hi Hj.
  rewrite (sources_snapshot _ _ Hi), (sources_snapshot _ _ Hj).
  destruct (firstn_le_app cs (i := S i) (j := S j) ltac:(lia)) as [extra ->].
  rewrite all_citations_app.
  assert (H : exists added,
             map uri (rebuild (all_citations (firstn (S i) cs)
                               ++ all_citations extra))
             = map uri (rebuild (all_citations (firstn (S i) cs))) ++ added).
  { rewrite rebuild_uris_app; eexists; reflexivity. }
  split; [exact H|].
  destruct H as [added H]. apply (f_equal (@length jsstring)) in H.
  rewrite length_app, !length_map in H. lia.
Qed.

Lemma sources_are_appended_witness :
  let up := Streams [cited_chunk (Some (js "x")) [page "a" "A1"];
                     cited_chunk None [page "b" "B1"; page "a" "A2"]] None in
  let si := {| text := js "x"; suggestion := None;
               sources := [ {| uri := js "a"; title := js "A1" |} ] |} in
  let sj := {| text := js "x"; suggestion := None;
               sources := [ {| uri := js "a"; title := js "A2" |};
                            {| uri := js "b"; title := js "B1" |} ] |} in
  0 <= 1
  /\ nth_error (emitted_snapshots (performSearchStream with_key (js "q") up))
       0 = Some si
  /\ nth_error (emitted_snapshots (performSearchStream with_key (js "q") up))
       1 = Some sj
  /\ (exists added, map uri (sources sj) = map uri (sources si) ++ added)
  /\ length (sources si) <= length (sources sj).
Proof.
  intros up si sj.
  assert (H0 : 0 <= 1) by lia.
  assert (Hi : nth_error
                 (emitted_snapshots (performSearchStream with_key (js "q") up))
                 0 = Some si) by (vm_compute; reflexivity).
  assert (Hj : nth_error
                 (emitted_snapshots (performSearchStream with_key (js "q") up))
                 1 = Some sj) by (vm_compute; reflexivity).
  split; [exact H0|]. split; [exact Hi|]. split; [exact Hj|].
  exact (@sources_are_appended with_key (js "q") up 0 1 si sj H0 Hi Hj).
Defined.
